(** * Accept-Language negotiation (Source/AcceptLanguage.ts)

    A shallow embedding of the [AcceptLanguage] class and of the module
    factory [create], followed by the properties of the registry builder
    ([languages]) and of the negotiator ([parse] and [get]).

    The class relies on three collaborators that live outside the
    repository: the [bcp47] parser, the [stable] sort and the built-in
    [parseFloat].  They are the fields of the class [Collaborators]; every
    general statement below holds for all of them, and a reference instance
    is used to run the code on concrete inputs. *)

From Stdlib Require Import Ascii String QArith Lqa.
From stdpp Require Import gmap strings list sorting.

Local Open Scope string_scope.
Local Open Scope list_scope.

(** ** JavaScript values used by the source *)

(** A JavaScript string is represented by a Rocq string whose characters
    stand for code units below 256. *)

(** The class [\s] of a regular expression, on code units below 256: tab,
    line feed, vertical tab, form feed, carriage return, space and the
    no-break space. *)
Definition isWhiteSpace (c : ascii) : bool :=
  let n := nat_of_ascii c in
  (n =? 9)%nat || (n =? 10)%nat || (n =? 11)%nat || (n =? 12)%nat
  || (n =? 13)%nat || (n =? 32)%nat || (n =? 160)%nat.

(** [s.split(sep)] for a one-character separator: the pieces between the
    occurrences of [sep]; the result is never empty. *)
Fixpoint split (sep : ascii) (s : string) : list string :=
  match s with
  | EmptyString => [EmptyString]
  | String c rest =>
      if Ascii.eqb c sep then EmptyString :: split sep rest
      else match split sep rest with
           | [] => [String c EmptyString]
           | piece :: pieces => String c piece :: pieces
           end
  end.

Fixpoint dropWhiteSpace (s : string) : string :=
  match s with
  | EmptyString => EmptyString
  | String c rest => if isWhiteSpace c then dropWhiteSpace rest else s
  end.

(** [s.replace(/\s+/, '')]: the regular expression has no [g] flag, so only
    the leftmost maximal run of white space is removed. *)
Fixpoint replaceFirstWhiteSpaceRun (s : string) : string :=
  match s with
  | EmptyString => EmptyString
  | String c rest =>
      if isWhiteSpace c then dropWhiteSpace rest
      else String c (replaceFirstWhiteSpaceRun rest)
  end.

(** Truthiness of a string: only the empty string is falsy. *)
Definition truthyString (s : string) : bool := negb (String.eqb s "").

(** Truthiness of a value of type [string | null] or [string | undefined]. *)
Definition truthy (v : option string) : bool :=
  match v with
  | None => false
  | Some s => truthyString s
  end.

(** A JavaScript number.  A finite double is denoted by its exact value; the
    sign of a zero is not represented (no operation of the source observes
    it). *)
Inductive JsNumber :=
| NaN
| PosInfinity
| NegInfinity
| Num (q : Q).

(** [x - y].  On finite operands the exact difference is kept: rounding to
    a double changes neither its sign nor whether it is zero, and the source
    hands the difference to the sort, which only looks at that. *)
Definition jsSub (x y : JsNumber) : JsNumber :=
  match x, y with
  | NaN, _ | _, NaN => NaN
  | PosInfinity, PosInfinity => NaN
  | NegInfinity, NegInfinity => NaN
  | PosInfinity, _ => PosInfinity
  | NegInfinity, _ => NegInfinity
  | Num _, PosInfinity => NegInfinity
  | Num _, NegInfinity => PosInfinity
  | Num a, Num b => Num (a - b)
  end.

(** [x <= 0], false on [NaN]. *)
Definition jsLeZero (x : JsNumber) : bool :=
  match x with
  | NaN | PosInfinity => false
  | NegInfinity => true
  | Num q => Qle_bool q 0
  end.

(** [x >= y], false as soon as one side is [NaN]. *)
Definition jsGe (x y : JsNumber) : bool :=
  match x, y with
  | NaN, _ | _, NaN => false
  | PosInfinity, _ => true
  | _, NegInfinity => true
  | _, PosInfinity => false
  | NegInfinity, _ => false
  | Num a, Num b => Qle_bool b a
  end.

(** [x === y] on numbers, false as soon as one side is [NaN]. *)
Definition jsNumEq (x y : JsNumber) : bool := jsGe x y && jsGe y x.

Definition isFiniteNumber (x : JsNumber) : bool :=
  match x with
  | Num _ => true
  | _ => false
  end.

(** ** Data model *)

(** [bcp47.Extension]. *)
Record Extension := {
  singleton : string;
  ext_extension : list string
}.

(** The [language] member of a [bcp47.LanguageTag].  [lang_language] is
    [null] ([None]) for a tag without primary language (private use only,
    grandfathered). *)
Record Language := {
  lang_language : option string;
  extlang : list string
}.

(** [bcp47.LanguageTag], the [langtag] member of what the parser returns. *)
Record LanguageTag := {
  language : Language;
  script : option string;
  region : option string;
  variant : list string;
  extension : list Extension;
  privateuse : list string
}.

(** [LanguageTagWithValue]: the parsed tag together with the string it was
    registered under. *)
Record LanguageTagWithValue := {
  langtag : LanguageTag;
  value : string
}.

(** An element of the array built by [parseAndSortLanguageTags]. *)
Record RequestedTag := {
  tag : string;
  quality : JsNumber
}.

#[global] Instance Extension_eq_dec : EqDecision Extension.
Proof. solve_decision. Defined.

(** The fields of an [AcceptLanguage] object.  [languageTagsWithValues] is
    a plain object ([{}]) used as a map from primary language to bucket: the
    finite map holds its own properties, and [readProperty] below adds the
    properties it inherits from [Object.prototype]. *)
Record AcceptLanguage := {
  languageTagsWithValues : gmap string (list LanguageTagWithValue);
  defaultLanguageTag : option string
}.

(** [new AcceptLanguage()]: the field initialisers of the class. *)
Definition newAcceptLanguage : AcceptLanguage :=
  {| languageTagsWithValues := ∅; defaultLanguageTag := None |}.

(** What the methods throw.  One constructor per [throw] statement of
    [languages]:
    - [NoLanguagesDefined]: [Error('The number of defined languages cannot
      be smaller than one.')];
    - [NotBcp47Compliant t]: [TypeError('Language tag ' + t + ' is not bcp47
      compliant. ...')];
    - [NotSupported t]: [TypeError('Language tag ' + t + ' is not
      supported.')];
    and one per [TypeError] that the engine raises on a property inherited
    from [Object.prototype]:
    - [PushIsNotAFunction]: the call of [.push] in [languages] on a value
      that has no such method;
    - [NotIterable]: the [for ... of] of [parse] over a value that is not
      iterable. *)
Inductive Thrown :=
| NoLanguagesDefined
| NotBcp47Compliant (languageTagString : string)
| NotSupported (languageTagString : string)
| PushIsNotAFunction
| NotIterable.

(** The names of the properties of [Object.prototype], which every plain
    object inherits.  Their values are functions, and [Object.prototype]
    itself under ["__proto__"]: all of them are truthy, none has a method
    [push] and none is iterable. *)
Definition inheritedKeys : list string :=
  [ "constructor"; "__defineGetter__"; "__defineSetter__"; "hasOwnProperty";
    "__lookupGetter__"; "__lookupSetter__"; "isPrototypeOf";
    "propertyIsEnumerable"; "toString"; "valueOf"; "__proto__";
    "toLocaleString" ].

(** What [languageTagsWithValues[key]] evaluates to. *)
Inductive PropertyRead :=
| OwnBucket (bucket : list LanguageTagWithValue)
| Inherited
| Undefined.

(** [object[key]] on the plain object whose own properties are [object]: an
    own property hides an inherited one, and a key that is neither own nor
    inherited reads as [undefined]. *)
Definition readProperty (object : gmap string (list LanguageTagWithValue))
    (key : string) : PropertyRead :=
  match object !! key with
  | Some bucket => OwnBucket bucket
  | None => if bool_decide (key ∈ inheritedKeys) then Inherited else Undefined
  end.

(** The argument of [get] and [parse]: [string | null | undefined]. *)
Inductive PriorityList :=
| PlNull
| PlUndefined
| PlString (s : string).

(** ** Collaborators *)

(** - [bcp47_parse s] is [bcp47.parse(s)]: [None] for [null], otherwise the
      [langtag] member of the result (the only member the source reads);
    - [parseFloat v] is the built-in applied to a string or to [undefined]
      ([None]);
    - [stable l comp] is [stable(l, comp)]. *)
Class Collaborators := {
  bcp47_parse : string → option LanguageTag;
  parseFloat : option string → JsNumber;
  stable : list RequestedTag →
           (RequestedTag → RequestedTag → JsNumber) → list RequestedTag
}.

(** ** Methods as state transformers

    A method runs on the fields of [this] and either returns or throws; in
    both cases the writes it has made to the fields stay. *)
Inductive Completion (A : Type) :=
| Normal (a : A)
| Throw (e : Thrown).
Arguments Normal {A} a.
Arguments Throw {A} e.

Definition M (A : Type) : Type := AcceptLanguage → Completion A * AcceptLanguage.

#[global] Instance M_ret : MRet M := λ A a this, (Normal a, this).

#[global] Instance M_bind : MBind M := λ A B k m this,
  match m this with
  | (Normal a, this') => k a this'
  | (Throw e, this') => (Throw e, this')
  end.

Definition throw {A} (e : Thrown) : M A := λ this, (Throw e, this).

Definition getThis : M AcceptLanguage := λ this, (Normal this, this).

Definition setLanguageTagsWithValues
    (m : gmap string (list LanguageTagWithValue)) : M unit :=
  λ this,
    (Normal (),
     {| languageTagsWithValues := m;
        defaultLanguageTag := defaultLanguageTag this |}).

Definition setDefaultLanguageTag (v : option string) : M unit :=
  λ this,
    (Normal (),
     {| languageTagsWithValues := languageTagsWithValues this;
        defaultLanguageTag := v |}).

(** [l.forEach(body)]: the body runs on the elements in order; an exception
    ends the loop. *)
Fixpoint forEach {A} (l : list A) (body : A → M unit) : M unit :=
  match l with
  | [] => mret ()
  | x :: rest => body x;; forEach rest body
  end.

(** ** The registry builder *)

(** The body of the arrow function given to [forEach] in [languages].  The
    test [!this.languageTagsWithValues[language]] holds only when the read
    gives [undefined]: a bucket is an array and an inherited property is a
    function or an object, both truthy.  On an inherited property the [else]
    branch calls a [push] that does not exist. *)
Definition registerLanguage `{Collaborators} (languageTagString : string) : M unit :=
  match bcp47_parse languageTagString with
  | None => throw (NotBcp47Compliant languageTagString)
  | Some languageTag =>
      match lang_language (language languageTag) with
      | Some key =>
          if truthyString key then
            let languageTagWithValues :=
              {| langtag := languageTag; value := languageTagString |} in
            this ← getThis;
            match readProperty (languageTagsWithValues this) key with
            | Undefined =>
                setLanguageTagsWithValues
                  (<[key := [languageTagWithValues]]> (languageTagsWithValues this))
            | OwnBucket bucket =>
                setLanguageTagsWithValues
                  (<[key := (bucket ++ [languageTagWithValues])%list]>
                     (languageTagsWithValues this))
            | Inherited => throw PushIsNotAFunction
            end
          else throw (NotSupported languageTagString)
      | None => throw (NotSupported languageTagString)
      end
  end.

(** [languages(definedLanguages)].  [definedLanguages[0]] is read after the
    length test, so it is a string. *)
Definition languages `{Collaborators} (definedLanguages : list string) : M unit :=
  if (length definedLanguages <? 1)%nat then throw NoLanguagesDefined
  else
    setLanguageTagsWithValues ∅;;
    forEach definedLanguages registerLanguage;;
    setDefaultLanguageTag (definedLanguages !! 0%nat).

(** ** The negotiator *)

(** The array literal iterated by the innermost [for ... of]. *)
Inductive TagProperty :=
| prop_privateuse
| prop_extension
| prop_variant
| prop_region
| prop_script.

Definition properties : list TagProperty :=
  [prop_privateuse; prop_extension; prop_variant; prop_region; prop_script].

(** What [(langTag as any)[prop]] can be: a string or [null] for [script]
    and [region], an array for the three others. *)
Inductive PropertyValue :=
| StringValue (v : option string)
| StringsValue (l : list string)
| ExtensionsValue (l : list Extension).

Definition getProperty (t : LanguageTag) (prop : TagProperty) : PropertyValue :=
  match prop with
  | prop_privateuse => StringsValue (privateuse t)
  | prop_extension => ExtensionsValue (extension t)
  | prop_variant => StringsValue (variant t)
  | prop_region => StringValue (region t)
  | prop_script => StringValue (script t)
  end.

(** Truthiness of a property value: an array is an object, hence truthy even
    when it is empty. *)
Definition truthyValue (v : PropertyValue) : bool :=
  match v with
  | StringValue s => truthy s
  | StringsValue _ => true
  | ExtensionsValue _ => true
  end.

(** [for (let i = 0; i < n; i++) body] where the body either falls through
    ([true]) or leaves with [continue middle] ([false]). *)
Definition forIndices (n : nat) (body : nat → bool) : bool :=
  forallb body (seq 0 n).

(** The loop of the [privateuse] and [variant] branch.  [defined[i]] is a
    string; [requested[i]] is a string, or [undefined] beyond the end, which
    is [!==] to every string. *)
Definition stringsAgree (defined requested : list string) : bool :=
  forIndices (length defined)
    (λ i, bool_decide (defined !! i = requested !! i)).

(** The two nested loops of the [extension] branch. *)
Definition extensionsAgree (defined requested : list Extension) : bool :=
  forIndices (length defined) (λ i,
    match defined !! i with
    | None => true
    | Some definedExtension =>
        let extensions := ext_extension definedExtension in
        forIndices (length extensions) (λ ei,
          match requested !! i with
          | None => false
          | Some requestedExtension =>
              bool_decide
                (extensions !! ei = ext_extension requestedExtension !! ei)
          end)
    end).

(** The body of the loop over [properties]: [true] when the iteration ends
    normally or by [continue], [false] when it ends by [continue middle].
    Both values are read under the same property, so the last case of the
    [match] never runs. *)
Definition checkProperty (prop : TagProperty)
    (definedLangTag requestedLangTag : LanguageTag) : bool :=
  let definedLanguagePropertValue := getProperty definedLangTag prop in
  if negb (truthyValue definedLanguagePropertValue) then true
  else
    let requestedLanguagePropertyValue := getProperty requestedLangTag prop in
    if negb (truthyValue requestedLanguagePropertyValue) then false
    else
      match definedLanguagePropertValue, requestedLanguagePropertyValue with
      | StringsValue d, StringsValue r => stringsAgree d r
      | ExtensionsValue d, ExtensionsValue r => extensionsAgree d r
      | StringValue d, StringValue r => bool_decide (d = r)
      | _, _ => false
      end.

(** Whether the body of the loop labelled [middle] reaches [result.push]. *)
Definition reachesPush (definedLangTag requestedLangTag : LanguageTag) : bool :=
  forallb (λ prop, checkProperty prop definedLangTag requestedLangTag) properties.

(** The loop labelled [middle], over one bucket. *)
Definition middle (requestedLangTag : LanguageTag)
    (bucket : list LanguageTagWithValue) (result : list string) : list string :=
  foldl (λ result definedLangTag,
           if reachesPush (langtag definedLangTag) requestedLangTag
           then (result ++ [value definedLangTag])%list
           else result)
        result bucket.

(** A value of type [string | null] used as a property key: [null] is
    converted to the string ["null"]. *)
Definition propertyKey (v : option string) : string :=
  match v with
  | Some s => s
  | None => "null"
  end.

(** The arrow function given to [map] in [parseAndSortLanguageTags].
    [components[0]] always exists, [split] never returning an empty array. *)
Definition weightedLanguageRange `{Collaborators} (w : string) : RequestedTag :=
  let components := split ";" (replaceFirstWhiteSpaceRun w) in
  {| tag := default "" (components !! 0%nat);
     quality :=
       match components !! 1%nat with
       | Some parameter =>
           if truthyString parameter
           then parseFloat (split "=" parameter !! 1%nat)
           else Num 1
       | None => Num 1
       end |}.

(** The array handed to [stable]: the mapped components that pass the
    filter (an object is truthy, so only the tag is tested). *)
Definition requestedTags `{Collaborators} (languagePriorityList : string)
    : list RequestedTag :=
  List.filter (λ languageTag, truthyString (tag languageTag))
    (map weightedLanguageRange (split "," languagePriorityList)).

(** The comparison function given to [stable]. *)
Definition byQuality (a b : RequestedTag) : JsNumber :=
  jsSub (quality b) (quality a).

Definition parseAndSortLanguageTags `{Collaborators}
    (languagePriorityList : string) : list RequestedTag :=
  stable (requestedTags languagePriorityList) byQuality.

(** [for (const x of l) body], the body working on an accumulator: an
    exception ends the loop. *)
Fixpoint forOf {A B} (l : list A) (body : B → A → Completion B) (acc : B)
    : Completion B :=
  match l with
  | [] => Normal acc
  | x :: rest =>
      match body acc x with
      | Normal acc' => forOf rest body acc'
      | Throw e => Throw e
      end
  end.

(** The body of the outer loop of [parse], on the array [result].  The test
    of line 68 leaves by [continue] only when the read gives [undefined];
    the loop labelled [middle] then iterates over what was read, which an
    inherited property does not allow. *)
Definition outer `{Collaborators} (this : AcceptLanguage)
    (result : list string) (languageTag : RequestedTag)
    : Completion (list string) :=
  match bcp47_parse (tag languageTag) with
  | None => Normal result
  | Some requestedLangTag =>
      match readProperty (languageTagsWithValues this)
              (propertyKey (lang_language (language requestedLangTag))) with
      | Undefined => Normal result
      | OwnBucket bucket => Normal (middle requestedLangTag bucket result)
      | Inherited => Throw NotIterable
      end
  end.

(** [parse(languagePriorityList)]; an element [None] of the result is
    [null].  The argument is falsy when it is [null], [undefined] or the
    empty string. *)
Definition parse `{Collaborators} (languagePriorityList : PriorityList)
    : M (list (option string)) :=
  this ← getThis;
  match languagePriorityList with
  | PlString s =>
      if truthyString s then
        let parsedAndSortedLanguageTags := parseAndSortLanguageTags s in
        match forOf parsedAndSortedLanguageTags (outer this) [] with
        | Normal result =>
            mret (if (0 <? length result)%nat then Some <$> result
                  else [defaultLanguageTag this])
        | Throw e => throw e
        end
      else mret [defaultLanguageTag this]
  | PlNull | PlUndefined => mret [defaultLanguageTag this]
  end.

(** [get(languagePriorityList)]: the outer [None] is [undefined], what
    indexing an empty array would give. *)
Definition get `{Collaborators} (languagePriorityList : PriorityList)
    : M (option (option string)) :=
  all ← parse languagePriorityList;
  mret (all !! 0%nat).

(** ** Instances and the factory

    Objects live in a heap and are known by their position in it.  Besides
    its fields an instance may own a property [create], which then hides the
    method of the class. *)
Record Instance := {
  fields : AcceptLanguage;
  ownCreate : bool
}.

Abbreviation Heap := (list Instance).

Definition alloc (o : Instance) (h : Heap) : nat * Heap :=
  (length h, (h ++ [o])%list).

(** The method [create] of the class: [return null as any]. *)
Definition AcceptLanguage_create (h : Heap) : option nat * Heap := (None, h).

(** The function assigned to [al.create] by the factory. *)
Definition ownCreateFunction (h : Heap) : option nat * Heap :=
  let (r, h') := alloc {| fields := newAcceptLanguage; ownCreate := false |} h in
  (Some r, h').

(** The module function [create]. *)
Definition create (h : Heap) : nat * Heap :=
  alloc {| fields := newAcceptLanguage; ownCreate := true |} h.

(** The call [al.create()]: the own property when there is one, the method
    of the class otherwise.  The result is [None] when [al] is no object of
    the heap, and otherwise the returned value ([None] for [null]) with the
    new heap. *)
Definition callCreate (al : nat) (h : Heap) : option (option nat * Heap) :=
  match h !! al with
  | None => None
  | Some o =>
      Some (if ownCreate o then ownCreateFunction h else AcceptLanguage_create h)
  end.

(** The call [al.m(...)] of a method given as a state transformer: it runs
    on the fields of [al] and writes them back. *)
Definition callMethod {A} (al : nat) (m : M A) (h : Heap)
    : option (Completion A * Heap) :=
  match h !! al with
  | None => None
  | Some o =>
      let (c, this') := m (fields o) in
      Some (c, <[al := {| fields := this'; ownCreate := ownCreate o |}]> h)
  end.

(** ** Reference collaborators

    Executable stand-ins for the three collaborators, used to run the code
    on concrete inputs.  No general statement depends on them. *)

Definition isDigit (c : ascii) : bool :=
  let n := nat_of_ascii c in (48 <=? n)%nat && (n <=? 57)%nat.

Definition isAlpha (c : ascii) : bool :=
  let n := nat_of_ascii c in
  (65 <=? n)%nat && (n <=? 90)%nat || (97 <=? n)%nat && (n <=? 122)%nat.

Definition isAlphanum (c : ascii) : bool := isAlpha c || isDigit c.

Definition toLower (c : ascii) : ascii :=
  let n := nat_of_ascii c in
  if (65 <=? n)%nat && (n <=? 90)%nat then ascii_of_nat (n + 32) else c.

Fixpoint toLowerCase (s : string) : string :=
  match s with
  | EmptyString => EmptyString
  | String c rest => String (toLower c) (toLowerCase rest)
  end.

Fixpoint allChars (p : ascii → bool) (s : string) : bool :=
  match s with
  | EmptyString => true
  | String c rest => p c && allChars p rest
  end.

(** [s] matches [class{lo,hi}]. *)
Definition subtag (p : ascii → bool) (lo hi : nat) (s : string) : bool :=
  (lo <=? String.length s)%nat && (String.length s <=? hi)%nat && allChars p s.

Definition isExtlang : string → bool := subtag isAlpha 3 3.
Definition isScript : string → bool := subtag isAlpha 4 4.
Definition isRegion (s : string) : bool :=
  subtag isAlpha 2 2 s || subtag isDigit 3 3 s.
Definition isVariant (s : string) : bool :=
  subtag isAlphanum 5 8 s
  || subtag isAlphanum 4 4 s
     && match s with String c _ => isDigit c | EmptyString => false end.
Definition isX (s : string) : bool := String.eqb (toLowerCase s) "x".
Definition isSingleton (s : string) : bool :=
  subtag isAlphanum 1 1 s && negb (isX s).
Definition isExtensionSubtag : string → bool := subtag isAlphanum 2 8.
Definition isPrivateuseSubtag : string → bool := subtag isAlphanum 1 8.

(** The tags matched as a whole by the first alternative of the grammar. *)
Definition grandfathered : list string :=
  ["en-gb-oed"; "i-ami"; "i-bnn"; "i-default"; "i-enochian"; "i-hak";
   "i-klingon"; "i-lux"; "i-mingo"; "i-navajo"; "i-pwn"; "i-tao"; "i-tay";
   "i-tsu"; "sgn-be-fr"; "sgn-be-nl"; "sgn-ch-de";
   "art-lojban"; "cel-gaulish"; "no-bok"; "no-nyn"; "zh-guoyu"; "zh-hakka";
   "zh-min"; "zh-min-nan"; "zh-xiang"].

(** At most [n] leading elements that satisfy [p], and the rest. *)
Fixpoint takeUpTo {A} (n : nat) (p : A → bool) (l : list A) : list A * list A :=
  match n, l with
  | S n', x :: rest =>
      if p x then let (taken, rest') := takeUpTo n' p rest in (x :: taken, rest')
      else ([], l)
  | _, _ => ([], l)
  end.

Definition takeOptional {A} (p : A → bool) (l : list A) : option A * list A :=
  match l with
  | x :: rest => if p x then (Some x, rest) else (None, l)
  | [] => (None, l)
  end.

(** The extensions and the private use part, up to the end of the tag.
    [current] is the extension being read. *)
Definition closeExtension (current : option Extension) (finished : list Extension)
    : option (list Extension) :=
  match current with
  | None => Some finished
  | Some e =>
      match ext_extension e with
      | [] => None
      | _ => Some (finished ++ [e])%list
      end
  end.

Fixpoint extensionsAndPrivateuse (current : option Extension)
    (finished : list Extension) (tokens : list string)
    : option (list Extension * list string) :=
  match tokens with
  | [] => finished' ← closeExtension current finished; Some (finished', [])
  | t :: rest =>
      if isX t then
        finished' ← closeExtension current finished;
        match rest with
        | [] => None
        | _ => if forallb isPrivateuseSubtag rest then Some (finished', rest)
               else None
        end
      else if isSingleton t then
        finished' ← closeExtension current finished;
        extensionsAndPrivateuse
          (Some {| singleton := t; ext_extension := [] |}) finished' rest
      else
        match current with
        | Some e =>
            if isExtensionSubtag t then
              extensionsAndPrivateuse
                (Some {| singleton := singleton e;
                         ext_extension := (ext_extension e ++ [t])%list |})
                finished rest
            else None
        | None => None
        end
  end.

(** What follows the language and its extended subtags. *)
Definition afterLanguage (lang : string) (extlangs tokens : list string)
    : option LanguageTag :=
  let (script', tokens1) := takeOptional isScript tokens in
  let (region', tokens2) := takeOptional isRegion tokens1 in
  let (variants, tokens3) := takeUpTo (length tokens2) isVariant tokens2 in
  '(extensions, privates) ← extensionsAndPrivateuse None [] tokens3;
  Some {| language := {| lang_language := Some lang; extlang := extlangs |};
          script := script'; region := region'; variant := variants;
          extension := extensions; privateuse := privates |}.

Definition noLanguage : LanguageTag :=
  {| language := {| lang_language := None; extlang := [] |};
     script := None; region := None; variant := []; extension := [];
     privateuse := [] |}.

(** A parser for the grammar of BCP 47, letters taken without regard to
    case and subtags returned as they are written. *)
Definition bcp47_reference (s : string) : option LanguageTag :=
  if bool_decide (toLowerCase s ∈ grandfathered) then Some noLanguage
  else
    match split "-" s with
    | [] => None
    | first :: tokens =>
        if isX first then
          match tokens with
          | [] => None
          | _ => if forallb isPrivateuseSubtag tokens then Some noLanguage
                 else None
          end
        else if subtag isAlpha 2 3 first then
          let (extlangs, tokens') := takeUpTo 3 isExtlang tokens in
          afterLanguage first extlangs tokens'
        else if subtag isAlpha 4 8 first then afterLanguage first [] tokens
        else None
    end.

(** Round the positive rational [n / d] to the nearest integer, ties to
    even. *)
Definition roundHalfEven (n d : Z) : Z :=
  let q := (n / d)%Z in
  let r := (n mod d)%Z in
  if (2 * r <? d)%Z then q
  else if (d <? 2 * r)%Z then (q + 1)%Z
  else if Z.even q then q else (q + 1)%Z.

(** The double nearest to [n / d] ([d] positive), ties to even. *)
Definition roundToDouble (n d : Z) : JsNumber :=
  if (n =? 0)%Z then Num 0
  else
    let a := Z.abs n in
    let k := (Z.log2 a - Z.log2 d)%Z in
    let l := if (d * 2 ^ Z.max 0 k <=? a * 2 ^ Z.max 0 (- k))%Z
             then k else (k - 1)%Z in
    let e := Z.max (l - 52) (-1074) in
    let m := roundHalfEven (a * 2 ^ Z.max 0 (- e)) (d * 2 ^ Z.max 0 e) in
    if (2 ^ 1024 <=? m * 2 ^ Z.max 0 e)%Z && (0 <=? e)%Z then
      if (n <? 0)%Z then NegInfinity else PosInfinity
    else
      Num (Qred (Qmake (Z.sgn n * m * 2 ^ Z.max 0 e)
                       (Z.to_pos (2 ^ Z.max 0 (- e))))).

(** The leading decimal digits of [s]: the number read so far, how many
    digits were read, and the rest. *)
Fixpoint readDigits (s : string) (acc : Z) (count : nat) : Z * nat * string :=
  match s with
  | String c rest =>
      if isDigit c
      then readDigits rest (10 * acc + Z.of_nat (nat_of_ascii c - 48))%Z (S count)
      else (acc, count, s)
  | EmptyString => (acc, count, s)
  end.

Definition readSign (s : string) : bool * string :=
  match s with
  | String "-" rest => (true, rest)
  | String "+" rest => (false, rest)
  | _ => (false, s)
  end.

(** The exponent part at the head of [s], 0 when there is none. *)
Definition readExponent (s : string) : Z :=
  match s with
  | String c rest =>
      if Ascii.eqb (toLower c) "e" then
        let (negative, rest') := readSign rest in
        let '(e, count, _) := readDigits rest' 0 0 in
        if (count =? 0)%nat then 0%Z else if negative then (- e)%Z else e
      else 0%Z
  | EmptyString => 0%Z
  end.

(** [parseFloat]: white space is skipped, then the longest prefix that is a
    decimal literal is read; [NaN] when there is none, and for [undefined]. *)
Definition parseFloat_reference (v : option string) : JsNumber :=
  match v with
  | None => NaN
  | Some s =>
      let (negative, s1) := readSign (dropWhiteSpace s) in
      if String.prefix "Infinity" s1 then
        if negative then NegInfinity else PosInfinity
      else
        let '(whole, wholeDigits, s2) := readDigits s1 0 0 in
        let '(mantissa, fractionDigits, s3) :=
          match s2 with
          | String "." rest => readDigits rest whole 0
          | _ => (whole, 0%nat, s2)
          end in
        if (wholeDigits + fractionDigits =? 0)%nat then NaN
        else
          let e := (readExponent s3 - Z.of_nat fractionDigits)%Z in
          let n := if negative then (- mantissa)%Z else mantissa in
          roundToDouble (n * 10 ^ Z.max 0 e) (10 ^ Z.max 0 (- e))
  end.

(** The sort of the package [stable] is a merge sort without recursion:
    chunks of 1, 2, 4, ... elements are merged two by two until one chunk
    covers the array.  The chunks are kept as a list of lists. *)

(** Two adjacent chunks are merged: the element of the left chunk goes
    first when [comp(left, right) <= 0], the element of the right chunk
    otherwise (also when the comparison gives [NaN]); what is left of a
    chunk is flushed. *)
Fixpoint mergeChunks (comp : RequestedTag → RequestedTag → JsNumber)
    (leftChunk rightChunk : list RequestedTag) {struct leftChunk}
    : list RequestedTag :=
  let fix mergeRight (rightChunk : list RequestedTag) {struct rightChunk} :=
    match leftChunk, rightChunk with
    | [], _ => rightChunk
    | _, [] => leftChunk
    | x :: leftChunk', y :: rightChunk' =>
        if jsLeZero (comp x y) then x :: mergeChunks comp leftChunk' rightChunk
        else y :: mergeRight rightChunk'
    end in
  mergeRight rightChunk.

(** One pass over the pairs of chunks; a last chunk without partner is
    copied. *)
Fixpoint pass (comp : RequestedTag → RequestedTag → JsNumber)
    (chunks : list (list RequestedTag)) : list (list RequestedTag) :=
  match chunks with
  | leftChunk :: rightChunk :: rest =>
      mergeChunks comp leftChunk rightChunk :: pass comp rest
  | _ => chunks
  end.

(** The passes are repeated while a chunk does not cover the array, that is
    while there are two chunks; [fuel] bounds their number. *)
Fixpoint passes (comp : RequestedTag → RequestedTag → JsNumber)
    (fuel : nat) (chunks : list (list RequestedTag)) : list (list RequestedTag) :=
  match fuel, chunks with
  | S fuel', _ :: _ :: _ => passes comp fuel' (pass comp chunks)
  | _, _ => chunks
  end.

(** [stable(l, comp)].  A pass leaves fewer chunks than it finds, so
    [length l] passes are enough to end with one chunk
    ([passes_single]). *)
Definition stable_reference (l : list RequestedTag)
    (comp : RequestedTag → RequestedTag → JsNumber) : list RequestedTag :=
  mjoin (passes comp (length l) ((λ x, [x]) <$> l)).

Definition reference : Collaborators :=
  {| bcp47_parse := bcp47_reference;
     parseFloat := parseFloat_reference;
     stable := stable_reference |}.

(** ** Notions used to state the properties *)

#[global] Instance Language_eq_dec : EqDecision Language.
Proof. solve_decision. Defined.
#[global] Instance LanguageTag_eq_dec : EqDecision LanguageTag.
Proof. solve_decision. Defined.
#[global] Instance LanguageTagWithValue_eq_dec : EqDecision LanguageTagWithValue.
Proof. solve_decision. Defined.

(** *** The contract of [stable] *)

(** [comp(a, b) <= 0]: the sort may leave [a] before [b]. *)
Definition comesFirst (comp : RequestedTag → RequestedTag → JsNumber)
    (a b : RequestedTag) : Prop :=
  jsLeZero (comp a b) = true.

(** [comp] compares the elements of [l] like a total preorder. *)
Definition consistentOn (comp : RequestedTag → RequestedTag → JsNumber)
    (l : list RequestedTag) : Prop :=
  (∀ a b, a ∈ l → b ∈ l → comesFirst comp a b ∨ comesFirst comp b a) ∧
  (∀ a b c, a ∈ l → b ∈ l → c ∈ l →
     comesFirst comp a b → comesFirst comp b c → comesFirst comp a c).

(** [a] and [b] are a tie for [comp]. *)
Definition tied (comp : RequestedTag → RequestedTag → JsNumber)
    (a b : RequestedTag) : bool :=
  jsLeZero (comp a b) && jsLeZero (comp b a).

(** The result of [stable] is a rearrangement of its argument; when the
    comparison function is consistent it is ordered by it, and the elements
    that tie keep the order they had. *)
Class StableSort `{Collaborators} : Prop := {
  stable_permutation : ∀ l comp, stable l comp ≡ₚ l;
  stable_sorted : ∀ l comp,
    consistentOn comp l → StronglySorted (comesFirst comp) (stable l comp);
  stable_ties : ∀ l comp x,
    consistentOn comp l → x ∈ l →
    List.filter (tied comp x) (stable l comp) = List.filter (tied comp x) l
}.

(** *** The registry as a function of the list of tags *)

(** The bucket key and the entry that [registerLanguage] makes of a tag it
    accepts. *)
Definition supportedTag `{Collaborators} (languageTagString : string)
    : option (string * LanguageTagWithValue) :=
  match bcp47_parse languageTagString with
  | None => None
  | Some languageTag =>
      match lang_language (language languageTag) with
      | Some key =>
          if truthyString key
          then Some (key, {| langtag := languageTag; value := languageTagString |})
          else None
      | None => None
      end
  end.

(** The entries of the tags of primary language [key], in the order of the
    list. *)
Definition bucketOf `{Collaborators} (key : string) (tags : list string)
    : list LanguageTagWithValue :=
  omap (λ s, match supportedTag s with
             | Some (key', entry) => if String.eqb key' key then Some entry else None
             | None => None
             end) tags.

(** *** Matches of one requested tag *)

(** The entries of the registry for which the loop [middle] reaches
    [result.push] while the outer loop is at [languageTag]. *)
Definition matchesFor `{Collaborators} (this : AcceptLanguage)
    (languageTag : RequestedTag) : list LanguageTagWithValue :=
  match bcp47_parse (tag languageTag) with
  | None => []
  | Some requestedLangTag =>
      match languageTagsWithValues this
              !! propertyKey (lang_language (language requestedLangTag)) with
      | None => []
      | Some bucket =>
          List.filter (λ d, reachesPush (langtag d) requestedLangTag) bucket
      end
  end.

(** The outer loop of [parse] throws at [languageTag]: the registry has the
    primary language of the tag as an inherited property only. *)
Definition throwsAt `{Collaborators} (this : AcceptLanguage)
    (languageTag : RequestedTag) : bool :=
  match bcp47_parse (tag languageTag) with
  | None => false
  | Some requestedLangTag =>
      match readProperty (languageTagsWithValues this)
              (propertyKey (lang_language (language requestedLangTag))) with
      | Inherited => true
      | _ => false
      end
  end.

(** The primary language of a requested tag is the name of an inherited
    property. *)
Definition requestsInherited `{Collaborators} (languageTag : RequestedTag) : bool :=
  match bcp47_parse (tag languageTag) with
  | None => false
  | Some requestedLangTag =>
      bool_decide
        (propertyKey (lang_language (language requestedLangTag)) ∈ inheritedKeys)
  end.

(** A priority list that is not falsy and has a component whose primary
    language is the name of an inherited property. *)
Definition requestsInheritedLanguage `{Collaborators}
    (languagePriorityList : PriorityList) : bool :=
  match languagePriorityList with
  | PlString s => truthyString s && existsb requestsInherited (requestedTags s)
  | PlNull | PlUndefined => false
  end.

(** What the outer loop of [parse] pushes to [result] when it runs to its
    end: the matches of the requested tags, in the order of the sorted
    array. *)
Definition matched `{Collaborators} (this : AcceptLanguage)
    (languagePriorityList : string) : list string :=
  value <$> mjoin (matchesFor this <$> parseAndSortLanguageTags languagePriorityList).

(** A tag specifies a category when it carries a subtag of it: a non-empty
    string for the script and the region, an element for the variants and
    the private use subtags, a subtag in one of its records for the
    extensions (the grammar gives every record at least one). *)
Definition specifies (prop : TagProperty) (t : LanguageTag) : bool :=
  match prop with
  | prop_privateuse => negb (bool_decide (privateuse t = []))
  | prop_extension =>
      existsb (λ e, negb (bool_decide (ext_extension e = []))) (extension t)
  | prop_variant => negb (bool_decide (variant t = []))
  | prop_region => truthy (region t)
  | prop_script => truthy (script t)
  end.

(** *** Order of the requested tags *)

(** [a] does not come after [b] in an array sorted by descending quality. *)
Definition descending (a b : RequestedTag) : Prop :=
  jsGe (quality a) (quality b) = true.

Definition sameQuality (a b : RequestedTag) : bool :=
  jsNumEq (quality a) (quality b).

(** *** The quality as the specification words it *)

(** The value of the first parameter named [q] among the parameters of a
    component, that is the pieces after the first [;]. *)
Definition qParameter (parameters : list string) : option string :=
  match List.filter (String.prefix "q=") parameters with
  | p :: _ => Some (String.substring 2 (String.length p - 2) p)
  | [] => None
  end.

(** The quality of a component according to the specification: the float
    value of its [q=] parameter when there is one, 1.0 otherwise. *)
Definition specifiedQuality `{Collaborators} (w : string) : JsNumber :=
  match qParameter (tail (split ";" (replaceFirstWhiteSpaceRun w))) with
  | Some v => parseFloat (Some v)
  | None => Num 1
  end.

(** *** Outcome of the loop of [languages] *)

(** What [registerLanguage] throws on a tag, [None] when it accepts it, in
    a registry none of whose own keys is the name of an inherited
    property. *)
Definition rejection `{Collaborators} (languageTagString : string) : option Thrown :=
  match bcp47_parse languageTagString with
  | None => Some (NotBcp47Compliant languageTagString)
  | Some languageTag =>
      if truthy (lang_language (language languageTag)) then
        if bool_decide
             (propertyKey (lang_language (language languageTag)) ∈ inheritedKeys)
        then Some PushIsNotAFunction
        else None
      else Some (NotSupported languageTagString)
  end.

(** The exception of the first tag that is not accepted. *)
Fixpoint firstRejection `{Collaborators} (tags : list string) : option Thrown :=
  match tags with
  | [] => None
  | s :: rest =>
      match rejection s with
      | Some e => Some e
      | None => firstRejection rest
      end
  end.

(** The tags that come before the first one that is not accepted. *)
Fixpoint acceptedPrefix `{Collaborators} (tags : list string) : list string :=
  match tags with
  | [] => []
  | s :: rest =>
      match rejection s with
      | Some _ => []
      | None => s :: acceptedPrefix rest
      end
  end.

(** A bucket extended by the entries [l]; no bucket is made of nothing. *)
Definition extendBucket (old : option (list LanguageTagWithValue))
    (l : list LanguageTagWithValue) : option (list LanguageTagWithValue) :=
  match old, l with
  | None, [] => None
  | None, _ => Some l
  | Some bucket, _ => Some (bucket ++ l)%list
  end.

(** The tags for which [registerLanguage] is written: the parser returns a
    tag with a primary language, and that language is not the name of a
    property that plain objects inherit. *)
Definition accepted `{Collaborators} (languageTagString : string) : Prop :=
  ∃ languageTag,
    bcp47_parse languageTagString = Some languageTag
    ∧ truthy (lang_language (language languageTag)) = true
    ∧ propertyKey (lang_language (language languageTag)) ∉ inheritedKeys.

(** No own key of the registry is the name of an inherited property. *)
Definition ownKeysNotInherited (this : AcceptLanguage) : Prop :=
  ∀ key, key ∈ inheritedKeys → languageTagsWithValues this !! key = None.

(** *** More about the matches *)

(** The outer loop of [parse] skips a requested tag that the parser refuses
    or whose primary language is no property of the registry. *)
Definition unrecognized `{Collaborators} (this : AcceptLanguage)
    (languageTag : RequestedTag) : Prop :=
  match bcp47_parse (tag languageTag) with
  | None => True
  | Some requestedLangTag =>
      readProperty (languageTagsWithValues this)
        (propertyKey (lang_language (language requestedLangTag))) = Undefined
  end.

(** The values that a requested tag selects among the registered [tags]:
    those of its primary language that reach [result.push], in the order of
    registration. *)
Definition matchesAmong `{Collaborators} (tags : list string)
    (languageTag : RequestedTag) : list string :=
  match bcp47_parse (tag languageTag) with
  | None => []
  | Some requestedLangTag =>
      value <$>
        List.filter (λ d, reachesPush (langtag d) requestedLangTag)
          (bucketOf (propertyKey (lang_language (language requestedLangTag))) tags)
  end.

(** How many times the string [v] occurs in a result of [parse]. *)
Definition occurrences (v : string) (l : list (option string)) : nat :=
  length (List.filter (λ x, bool_decide (x = Some v)) l).

Fixpoint contains (c : ascii) (s : string) : bool :=
  match s with
  | EmptyString => false
  | String c' rest => Ascii.eqb c' c || contains c rest
  end.

(** A tag with a primary language and at most a script and a region. *)
Definition plainTag (lang : string) (script' region' : option string) : LanguageTag :=
  {| language := {| lang_language := Some lang; extlang := [] |};
     script := script'; region := region'; variant := []; extension := [];
     privateuse := [] |}.

(** *** A declarative reading of the loop labelled [middle] *)

(** What the loop asks of a string property: when the registered tag has
    it, the requested tag has the same. *)
Definition stringCovered (defined requested : option string) : Prop :=
  truthy defined = true → requested = defined.

(** What the loop asks of the extensions: the subtags of each registered
    record begin the subtags of the requested record at the same position. *)
Definition extensionsCovered (defined requested : list Extension) : Prop :=
  ∀ i e, defined !! i = Some e →
    ext_extension e = []
    ∨ ∃ e', requested !! i = Some e'
            ∧ ext_extension e `prefix_of` ext_extension e'.

Definition covers (definedLangTag requestedLangTag : LanguageTag) : Prop :=
  privateuse definedLangTag `prefix_of` privateuse requestedLangTag
  ∧ extensionsCovered (extension definedLangTag) (extension requestedLangTag)
  ∧ variant definedLangTag `prefix_of` variant requestedLangTag
  ∧ stringCovered (region definedLangTag) (region requestedLangTag)
  ∧ stringCovered (script definedLangTag) (script requestedLangTag).

(** Two tags agree on what the loop reads: the script, the region, the
    variants, the private use subtags and the subtags of the extension
    records. *)
Definition sameMatchedFields (a b : LanguageTag) : Prop :=
  script a = script b
  ∧ region a = region b
  ∧ variant a = variant b
  ∧ privateuse a = privateuse b
  ∧ ext_extension <$> extension a = ext_extension <$> extension b.

(** *** An invariant of the registry *)

(** No bucket is empty, no key is the empty string, and every entry sits
    under its primary language and carries the tag the parser returns for
    its string. *)
Definition wellFormedRegistry `{Collaborators} (this : AcceptLanguage) : Prop :=
  ∀ key bucket,
    languageTagsWithValues this !! key = Some bucket →
    bucket ≠ [] ∧ key ≠ ""
    ∧ ∀ d, d ∈ bucket →
        bcp47_parse (value d) = Some (langtag d)
        ∧ lang_language (language (langtag d)) = Some key.

(** *** Writing a priority list *)

(** A component as a client writes it: white space, a language range, and
    possibly a weight given as [;q=...]. *)
Record HeaderItem := {
  lead : string;
  range : string;
  weight : option string
}.

Definition renderItem (item : HeaderItem) : string :=
  lead item +:+ range item
  +:+ match weight item with
      | Some v => ";q=" +:+ v
      | None => ""
      end.

(** The components separated by commas. *)
Fixpoint renderHeader (items : list HeaderItem) : string :=
  match items with
  | [] => ""
  | [item] => renderItem item
  | item :: rest => renderItem item +:+ String "," (renderHeader rest)
  end.

(** Text without white space, comma or semicolon. *)
Definition plainText (s : string) : bool :=
  allChars (λ c, negb (isWhiteSpace c || Ascii.eqb c "," || Ascii.eqb c ";")) s.

Definition wellFormedItem (item : HeaderItem) : Prop :=
  allChars isWhiteSpace (lead item) = true
  ∧ range item ≠ ""
  ∧ plainText (range item) = true
  ∧ match weight item with
    | Some v => plainText v = true ∧ contains "=" v = false
    | None => True
    end.

(** What [parseAndSortLanguageTags] is expected to read from a component. *)
Definition requestedItem `{Collaborators} (item : HeaderItem) : RequestedTag :=
  {| tag := range item;
     quality := match weight item with
                | Some v => parseFloat (Some v)
                | None => Num 1
                end |}.

(** * Properties *)

(** ** JavaScript primitives *)

Lemma split_not_nil sep s : split sep s ≠ [].
Proof. destruct s as [|c s]; simpl; [done|]. by repeat case_match. Qed.

Lemma split_lookup_0 sep s : is_Some (split sep s !! 0%nat).
Proof. pose proof (split_not_nil sep s). destruct (split sep s); [done|by eexists]. Qed.

Lemma truthyString_true s : truthyString s = true ↔ s ≠ "".
Proof.
  unfold truthyString. rewrite negb_true_iff.
  destruct (String.eqb_spec s ""); naive_solver.
Qed.

Lemma truthyString_false s : truthyString s = false ↔ s = "".
Proof.
  unfold truthyString. rewrite negb_false_iff. apply String.eqb_eq.
Qed.

Section Registry.
Context `{Collaborators}.

(** ** The registry builder *)

Lemma not_inherited key :
  bool_decide (key ∈ inheritedKeys) = false → key ∉ inheritedKeys.
Proof. apply bool_decide_eq_false_1. Qed.

Lemma is_inherited key :
  bool_decide (key ∈ inheritedKeys) = true → key ∈ inheritedKeys.
Proof. apply bool_decide_eq_true_1. Qed.

Lemma readProperty_own object key bucket :
  object !! key = Some bucket → readProperty object key = OwnBucket bucket.
Proof. unfold readProperty. by intros ->. Qed.

Lemma readProperty_not_inherited object key :
  key ∉ inheritedKeys →
  readProperty object key =
  match object !! key with
  | Some bucket => OwnBucket bucket
  | None => Undefined
  end.
Proof.
  intros Hkey. unfold readProperty.
  destruct (object !! key); [done|]. by rewrite bool_decide_eq_false_2.
Qed.

Lemma readProperty_inherited object key :
  key ∈ inheritedKeys → object !! key = None →
  readProperty object key = Inherited.
Proof.
  intros Hkey Hown. unfold readProperty. rewrite Hown.
  by rewrite bool_decide_eq_true_2.
Qed.

Lemma rejection_None s :
  rejection s = None ↔
  ∃ key d, supportedTag s = Some (key, d) ∧ key ∉ inheritedKeys.
Proof.
  unfold rejection, supportedTag, truthy.
  destruct (bcp47_parse s) as [t|]; [|by split; [|intros (? & ? & ? & _)]].
  destruct (lang_language (language t)) as [key|];
    [|by split; [|intros (? & ? & ? & _)]].
  destruct (truthyString key); [|by split; [|intros (? & ? & ? & _)]].
  simpl. case_bool_decide as Hkey; split; try done.
  - by intros (? & ? & [= <- _] & ?).
  - intros _. by eexists _, _.
Qed.

Lemma registerLanguage_rejected s e this :
  ownKeysNotInherited this →
  rejection s = Some e → registerLanguage s this = (Throw e, this).
Proof.
  intros Hown. unfold rejection, registerLanguage, truthy.
  destruct (bcp47_parse s) as [t|]; [|by intros [= <-]].
  destruct (lang_language (language t)) as [key|]; [|by intros [= <-]].
  destruct (truthyString key); [|by intros [= <-]].
  simpl. case_bool_decide as Hkey; [|done]. intros [= <-].
  unfold mbind, M_bind, getThis.
  by rewrite (readProperty_inherited _ _ Hkey (Hown _ Hkey)).
Qed.

Lemma registerLanguage_accepted s this :
  rejection s = None →
  ∃ m, registerLanguage s this =
         (Normal (), {| languageTagsWithValues := m;
                        defaultLanguageTag := defaultLanguageTag this |})
       ∧ (∀ key, m !! key =
            extendBucket (languageTagsWithValues this !! key) (bucketOf key [s]))
       ∧ (ownKeysNotInherited this →
          ownKeysNotInherited {| languageTagsWithValues := m;
                                 defaultLanguageTag := defaultLanguageTag this |}).
Proof.
  unfold rejection, registerLanguage, bucketOf, supportedTag, truthy. simpl.
  destruct (bcp47_parse s) as [t|]; [|done].
  destruct (lang_language (language t)) as [k|]; [|done].
  destruct (truthyString k); [|done].
  simpl. case_bool_decide as Hk; [done|]. intros _.
  unfold mbind, M_bind, getThis, setLanguageTagsWithValues.
  rewrite (readProperty_not_inherited _ _ Hk).
  assert (∀ m : gmap string (list LanguageTagWithValue),
            (∀ key, m !! key =
               extendBucket (languageTagsWithValues this !! key)
                 (if String.eqb k key
                  then [{| langtag := t; value := s |}] else [])) →
            ownKeysNotInherited this →
            ownKeysNotInherited {| languageTagsWithValues := m;
                                   defaultLanguageTag := defaultLanguageTag this |})
    as Hkeeps.
  { intros m Hm Hown key Hkey. simpl. rewrite Hm, (Hown key Hkey).
    destruct (String.eqb_spec k key) as [->|Hne]; [done|]. done. }
  destruct (languageTagsWithValues this !! k) as [bucket|] eqn:Hown;
    (eexists; split; [reflexivity|]).
  - assert (∀ key,
              <[k := (bucket ++ [{| langtag := t; value := s |}])%list]>
                (languageTagsWithValues this) !! key =
              extendBucket (languageTagsWithValues this !! key)
                (if String.eqb k key
                 then [{| langtag := t; value := s |}] else [])) as Hm.
    { intros key. destruct (String.eqb_spec k key) as [->|Hne]; simpl.
      - by rewrite lookup_insert_eq, Hown.
      - rewrite lookup_insert_ne by done.
        destruct (languageTagsWithValues this !! key); simpl;
          [by rewrite app_nil_r|done]. }
    split; [|by apply Hkeeps].
    intros key. rewrite Hm. by destruct (String.eqb k key).
  - assert (∀ key,
              <[k := [{| langtag := t; value := s |}]]>
                (languageTagsWithValues this) !! key =
              extendBucket (languageTagsWithValues this !! key)
                (if String.eqb k key
                 then [{| langtag := t; value := s |}] else [])) as Hm.
    { intros key. destruct (String.eqb_spec k key) as [->|Hne]; simpl.
      - by rewrite lookup_insert_eq, Hown.
      - rewrite lookup_insert_ne by done.
        destruct (languageTagsWithValues this !! key); simpl;
          [by rewrite app_nil_r|done]. }
    split; [|by apply Hkeeps].
    intros key. rewrite Hm. by destruct (String.eqb k key).
Qed.

Lemma extendBucket_nil old : extendBucket old [] = old.
Proof. destruct old; simpl; [by rewrite app_nil_r|done]. Qed.

Lemma extendBucket_app old l1 l2 :
  extendBucket (extendBucket old l1) l2 = extendBucket old (l1 ++ l2)%list.
Proof.
  destruct old, l1, l2; simpl; rewrite ?app_nil_r, <-?app_assoc; done.
Qed.

Lemma bucketOf_cons key s tags :
  bucketOf key (s :: tags) = (bucketOf key [s] ++ bucketOf key tags)%list.
Proof. unfold bucketOf. simpl. by repeat case_match. Qed.

(** The loop of [languages]: it throws what the first tag that is not
    accepted calls for, and has by then added the tags in front of it to
    their buckets. *)
Lemma forEach_registerLanguage tags this :
  ownKeysNotInherited this →
  ∃ m, forEach tags registerLanguage this =
         (match firstRejection tags with
          | Some e => Throw e
          | None => Normal ()
          end,
          {| languageTagsWithValues := m;
             defaultLanguageTag := defaultLanguageTag this |})
       ∧ ∀ key, m !! key =
           extendBucket (languageTagsWithValues this !! key)
                        (bucketOf key (acceptedPrefix tags)).
Proof.
  revert this. induction tags as [|s tags IH]; intros this Hown; simpl.
  - exists (languageTagsWithValues this). split; [by destruct this|].
    intros key. by rewrite extendBucket_nil.
  - destruct (rejection s) as [e|] eqn:Hs.
    + unfold mbind, M_bind. rewrite (registerLanguage_rejected _ _ _ Hown Hs).
      exists (languageTagsWithValues this). split; [by destruct this|].
      intros key. by rewrite extendBucket_nil.
    + destruct (registerLanguage_accepted s this Hs) as (m1 & Hrun & Hm1 & Hown1).
      unfold mbind, M_bind. rewrite Hrun.
      destruct (IH {| languageTagsWithValues := m1;
                      defaultLanguageTag := defaultLanguageTag this |}
                   (Hown1 Hown))
        as (m2 & Hrun2 & Hm2).
      exists m2. split; [exact Hrun2|].
      intros key. rewrite Hm2. simpl. rewrite Hm1, extendBucket_app.
      by rewrite <-bucketOf_cons.
Qed.

(** [languages] as a function of the list of tags. *)
Lemma languages_outcome tags this :
  match tags with
  | [] => languages tags this = (Throw NoLanguagesDefined, this)
  | first :: _ =>
      ∃ m, (∀ key, m !! key = extendBucket None (bucketOf key (acceptedPrefix tags)))
           ∧ languages tags this =
               match firstRejection tags with
               | Some e =>
                   (Throw e, {| languageTagsWithValues := m;
                                defaultLanguageTag := defaultLanguageTag this |})
               | None =>
                   (Normal (), {| languageTagsWithValues := m;
                                  defaultLanguageTag := Some first |})
               end
  end.
Proof.
  destruct tags as [|first tags]; [done|].
  unfold languages.
  change (length (first :: tags) <? 1)%nat with false. cbv iota.
  unfold mbind at 1, M_bind at 1. unfold setLanguageTagsWithValues at 1.
  destruct (forEach_registerLanguage (first :: tags)
              {| languageTagsWithValues := ∅;
                 defaultLanguageTag := defaultLanguageTag this |})
    as (m & Hrun & Hm).
  { intros key _. apply lookup_empty. }
  exists m. split.
  { intros key. rewrite Hm. simpl. by rewrite lookup_empty. }
  unfold mbind, M_bind. rewrite Hrun.
  by destruct (firstRejection (first :: tags)).
Qed.

(** The tags in front of the first rejected one are accepted, so no bucket
    of the registry that [languages] builds sits under the name of an
    inherited property. *)
Lemma acceptedPrefix_rejection tags s :
  s ∈ acceptedPrefix tags → rejection s = None.
Proof.
  induction tags as [|s' tags IH]; simpl; [by intros ?%elem_of_nil|].
  destruct (rejection s') eqn:Hs'; [by intros ?%elem_of_nil|].
  intros [->|Hs]%elem_of_cons; [done|by apply IH].
Qed.

Lemma bucketOf_supported key tags d :
  d ∈ bucketOf key tags →
  value d ∈ tags ∧ supportedTag (value d) = Some (key, d).
Proof.
  unfold bucketOf. intros Hd. apply list_elem_of_omap in Hd as (s & Hs & Hd).
  destruct (supportedTag s) as [[key' entry]|] eqn:Hsup; [|done].
  destruct (String.eqb_spec key' key) as [->|]; [|done].
  injection Hd as ->.
  assert (value d = s) as ->; [|done].
  unfold supportedTag in Hsup. repeat case_match; try done.
  by injection Hsup as _ <-.
Qed.

Lemma bucketOf_acceptedPrefix_inherited key tags :
  key ∈ inheritedKeys → bucketOf key (acceptedPrefix tags) = [].
Proof.
  intros Hkey.
  destruct (bucketOf key (acceptedPrefix tags)) as [|d bucket] eqn:Hb; [done|].
  assert (d ∈ bucketOf key (acceptedPrefix tags)) as Hd.
  { rewrite Hb. apply list_elem_of_here. }
  apply bucketOf_supported in Hd as [Hd Hsup].
  apply acceptedPrefix_rejection, rejection_None in Hd as (key' & d' & Hsup' & Hkey').
  rewrite Hsup in Hsup'. by injection Hsup' as <- _.
Qed.

Lemma languages_ownKeysNotInherited tags this :
  tags ≠ [] → ownKeysNotInherited (snd (languages tags this)).
Proof.
  intros Htags. pose proof (languages_outcome tags this) as Hout.
  destruct tags as [|first tags]; [done|].
  destruct Hout as (m & Hm & ->). intros key Hkey.
  assert (m !! key = None) as Hnone.
  { by rewrite Hm, bucketOf_acceptedPrefix_inherited. }
  by destruct (firstRejection (first :: tags)).
Qed.

End Registry.

(** ** The negotiator *)

Lemma forIndices_true n body :
  forIndices n body = true ↔ ∀ i, (i < n)%nat → body i = true.
Proof.
  unfold forIndices. rewrite forallb_forall. split.
  - intros Hb i Hi. apply Hb, in_seq. lia.
  - intros Hb i Hi. apply Hb. apply in_seq in Hi. lia.
Qed.

Lemma forIndices_false n body i :
  (i < n)%nat → body i = false → forIndices n body = false.
Proof.
  intros Hi Hb. apply not_true_is_false. rewrite forIndices_true.
  intros Hall. specialize (Hall i Hi). congruence.
Qed.

Lemma stringsAgree_nil_r defined :
  defined ≠ [] → stringsAgree defined [] = false.
Proof.
  intros Hd. destruct defined as [|x defined]; [done|].
  apply (forIndices_false _ _ 0%nat); [simpl; lia|].
  by apply bool_decide_eq_false.
Qed.

Lemma extensionsAgree_unspecified defined requested :
  existsb (λ e, negb (bool_decide (ext_extension e = []))) defined = true →
  existsb (λ e, negb (bool_decide (ext_extension e = []))) requested = false →
  extensionsAgree defined requested = false.
Proof.
  intros Hd Hr. apply existsb_exists in Hd as (e & He & Hne).
  apply negb_true_iff, bool_decide_eq_false in Hne.
  apply list_elem_of_In, list_elem_of_lookup in He as [i Hi].
  apply (forIndices_false _ _ i); [by eapply lookup_lt_Some|].
  rewrite Hi. destruct (ext_extension e) as [|x extensions] eqn:Hext; [done|].
  apply (forIndices_false _ _ 0%nat); [simpl; lia|].
  destruct (requested !! i) as [re|] eqn:Hre; [|done].
  apply bool_decide_eq_false. simpl.
  assert (ext_extension re = []) as ->; [|done].
  destruct (decide (ext_extension re = [])) as [|Hne']; [done|].
  exfalso. apply not_true_iff_false in Hr. apply Hr, existsb_exists.
  exists re. split.
  - apply list_elem_of_In, list_elem_of_lookup. eauto.
  - by apply negb_true_iff, bool_decide_eq_false.
Qed.

(** A category that the registered tag specifies and the requested tag does
    not sends the loop to [continue middle]. *)
Lemma checkProperty_too_specific prop d r :
  specifies prop d = true → specifies prop r = false →
  checkProperty prop d r = false.
Proof.
  unfold checkProperty.
  destruct prop; simpl; intros Hd Hr.
  - apply negb_true_iff, bool_decide_eq_false in Hd.
    apply negb_false_iff, bool_decide_eq_true in Hr.
    rewrite Hr. by apply stringsAgree_nil_r.
  - by apply extensionsAgree_unspecified.
  - apply negb_true_iff, bool_decide_eq_false in Hd.
    apply negb_false_iff, bool_decide_eq_true in Hr.
    rewrite Hr. by apply stringsAgree_nil_r.
  - by rewrite Hd, Hr.
  - by rewrite Hd, Hr.
Qed.

Lemma reachesPush_too_specific prop d r :
  specifies prop d = true → specifies prop r = false →
  reachesPush d r = false.
Proof.
  intros Hd Hr. apply not_true_is_false. unfold reachesPush.
  rewrite forallb_forall. intros Hall.
  assert (In prop properties) as Hin by (destruct prop; simpl; tauto).
  specialize (Hall prop Hin).
  rewrite (checkProperty_too_specific prop d r Hd Hr) in Hall. done.
Qed.

Lemma extensionsAgree_none defined requested :
  existsb (λ e, negb (bool_decide (ext_extension e = []))) defined = false →
  extensionsAgree defined requested = true.
Proof.
  intros Hd. apply forIndices_true. intros i Hi.
  destruct (defined !! i) as [e|] eqn:He; [|done].
  assert (ext_extension e = []) as ->; [|done].
  destruct (decide (ext_extension e = [])) as [|Hne]; [done|].
  exfalso. apply not_true_iff_false in Hd. apply Hd, existsb_exists.
  exists e. split.
  - apply list_elem_of_In, list_elem_of_lookup. eauto.
  - by apply negb_true_iff, bool_decide_eq_false.
Qed.

(** A registered tag that specifies no category reaches [result.push]
    whatever is requested. *)
Lemma reachesPush_unspecific d r :
  (∀ prop, specifies prop d = false) → reachesPush d r = true.
Proof.
  intros Hd. unfold reachesPush. apply forallb_forall. intros prop _.
  specialize (Hd prop). unfold checkProperty.
  destruct prop; simpl in *.
  - apply negb_false_iff, bool_decide_eq_true in Hd. by rewrite Hd.
  - by apply extensionsAgree_none.
  - apply negb_false_iff, bool_decide_eq_true in Hd. by rewrite Hd.
  - by rewrite Hd.
  - by rewrite Hd.
Qed.

Lemma middle_filter r bucket result :
  middle r bucket result =
  (result ++ (value <$> List.filter (λ d, reachesPush (langtag d) r) bucket))%list.
Proof.
  unfold middle. revert result.
  induction bucket as [|d bucket IH]; intros result; simpl.
  - by rewrite app_nil_r.
  - rewrite IH. destruct (reachesPush (langtag d) r); simpl; [|done].
    by rewrite <-app_assoc.
Qed.

Lemma mjoin_cons {A} (x : list A) (l : list (list A)) :
  mjoin (x :: l) = x ++ mjoin l.
Proof. done. Qed.

Section Negotiator.
Context `{Collaborators}.

(** An iteration of the outer loop throws at a tag for which [throwsAt]
    holds, and otherwise appends the matches of the tag. *)
Lemma outer_matchesFor this result languageTag :
  outer this result languageTag =
  if throwsAt this languageTag then Throw NotIterable
  else Normal (result ++ (value <$> matchesFor this languageTag))%list.
Proof.
  unfold outer, throwsAt, matchesFor, readProperty.
  destruct (bcp47_parse (tag languageTag)) as [r|]; [|by rewrite app_nil_r].
  destruct (languageTagsWithValues this !! _).
  - by rewrite middle_filter.
  - case_bool_decide; [done|by rewrite app_nil_r].
Qed.

Lemma forOf_outer this result l :
  forOf l (outer this) result =
  if existsb (throwsAt this) l then Throw NotIterable
  else Normal (result ++ (value <$> mjoin (matchesFor this <$> l)))%list.
Proof.
  revert result. induction l as [|c l IH]; intros result.
  - simpl. by rewrite app_nil_r.
  - cbn [forOf existsb]. rewrite outer_matchesFor.
    destruct (throwsAt this c); [done|]. rewrite IH. cbn [orb].
    destruct (existsb (throwsAt this) l); [done|].
    by rewrite fmap_cons, mjoin_cons, fmap_app, app_assoc.
Qed.

(** [matched] is the concatenation, in the order of the sorted requested
    tags, of the matches of each of them. *)
Lemma matched_concat this s :
  matched this s =
  value <$> mjoin (matchesFor this <$> parseAndSortLanguageTags s).
Proof. done. Qed.

(** The outer loop of [parse] either throws, at a tag for which [throwsAt]
    holds, or ends with [matched] in [result]. *)
Lemma outer_loop this s :
  forOf (parseAndSortLanguageTags s) (outer this) [] =
  if existsb (throwsAt this) (parseAndSortLanguageTags s) then Throw NotIterable
  else Normal (matched this s).
Proof. by rewrite forOf_outer. Qed.

(** [parse] leaves the fields as they are; when it returns, its result is
    either [result] or the default on its own. *)
Lemma parse_outcome pl this :
  parse pl this =
  (match pl with
   | PlString s =>
       if truthyString s then
         if existsb (throwsAt this) (parseAndSortLanguageTags s)
         then Throw NotIterable
         else Normal (match matched this s with
                      | [] => [defaultLanguageTag this]
                      | result => Some <$> result
                      end)
       else Normal [defaultLanguageTag this]
   | _ => Normal [defaultLanguageTag this]
   end, this).
Proof.
  destruct pl as [| |s]; try done.
  unfold parse, mbind, M_bind, getThis.
  destruct (truthyString s); [|done].
  cbv zeta. rewrite outer_loop.
  destruct (existsb (throwsAt this) (parseAndSortLanguageTags s)); [done|].
  by destruct (matched this s).
Qed.

Lemma parse_snd pl this : snd (parse pl this) = this.
Proof. by rewrite parse_outcome. Qed.

Lemma parse_throws pl this e :
  fst (parse pl this) = Throw e → e = NotIterable.
Proof.
  rewrite parse_outcome. cbn [fst]. destruct pl as [| |s]; try done.
  destruct (truthyString s); [|done].
  destruct (existsb _ _); [|done]. by intros [= <-].
Qed.

Lemma parse_Normal_not_nil pl this l :
  fst (parse pl this) = Normal l →
  ∃ first rest, l = first :: rest.
Proof.
  rewrite parse_outcome. cbn [fst]. destruct pl as [| |s].
  - intros [= <-]. eauto.
  - intros [= <-]. eauto.
  - destruct (truthyString s); [|intros [= <-]; eauto].
    destruct (existsb _ _); [done|]. intros [= <-].
    destruct (matched this s); simpl; eauto.
Qed.

Lemma get_outcome pl this first rest :
  parse pl this = (Normal (first :: rest), this) →
  get pl this = (Normal (Some first), this).
Proof. intros Hp. unfold get, mbind, M_bind. by rewrite Hp. Qed.

Lemma get_of_parse pl this :
  get pl this =
  (match fst (parse pl this) with
   | Normal all => Normal (all !! 0%nat)
   | Throw e => Throw e
   end, this).
Proof.
  unfold get, mbind, M_bind. pose proof (parse_snd pl this) as Hsnd.
  destruct (parse pl this) as [[all|e] this']; simpl in *; by subst.
Qed.

(** In a registry without own key that is the name of an inherited
    property, the loop throws exactly at the requested tags whose primary
    language is such a name. *)
Lemma throwsAt_requestsInherited this c :
  ownKeysNotInherited this → throwsAt this c = requestsInherited c.
Proof.
  intros Hown. unfold throwsAt, requestsInherited, readProperty.
  destruct (bcp47_parse (tag c)) as [r|]; [|done].
  case_bool_decide as Hkey.
  - by rewrite (Hown _ Hkey).
  - by destruct (languageTagsWithValues this !! _).
Qed.

Lemma existsb_ext_in {A} (f g : A → bool) (l : list A) :
  (∀ x, x ∈ l → f x = g x) → existsb f l = existsb g l.
Proof.
  induction l as [|x l IH]; intros Hfg; [done|]. simpl.
  rewrite (Hfg x) by apply list_elem_of_here.
  rewrite IH; [done|]. intros y Hy. by apply Hfg, list_elem_of_further.
Qed.

Lemma existsb_Permutation {A} (f : A → bool) (l l' : list A) :
  l ≡ₚ l' → existsb f l = existsb f l'.
Proof.
  induction 1 as [|x l l' _ IH|x y l|l l' l'' _ IH1 _ IH2]; simpl.
  - done.
  - by rewrite IH.
  - by destruct (f x), (f y).
  - by rewrite IH1.
Qed.

Lemma existsb_false {A} (f : A → bool) (l : list A) :
  existsb f l = false ↔ ∀ x, x ∈ l → f x = false.
Proof.
  induction l as [|x l IH]; simpl.
  - split; [by intros _ x ?%elem_of_nil|done].
  - rewrite orb_false_iff, IH. split.
    + intros [Hx Hl] y [->|Hy]%elem_of_cons; [done|by apply Hl].
    + intros Hall. split; [apply Hall, list_elem_of_here|].
      intros y Hy. by apply Hall, list_elem_of_further.
Qed.

End Negotiator.

(** ** The reference sort meets the contract of [stable] *)

Lemma pairs_ind {A} (P : list A → Prop) :
  P [] → (∀ x, P [x]) → (∀ x y l, P l → P (x :: y :: l)) → ∀ l, P l.
Proof.
  intros Hnil Hone Hpair l.
  assert (P l ∧ ∀ x, P (x :: l)) as [? _]; [|done].
  induction l as [|y l [IH1 IH2]]; [done|]. split; [done|].
  intros x. by apply Hpair.
Qed.

Lemma filter_none {A} (f : A → bool) (l : list A) :
  (∀ x, x ∈ l → f x = false) → List.filter f l = [].
Proof.
  induction l as [|x l IH]; intros Hl; [done|]. simpl.
  rewrite (Hl x) by apply list_elem_of_here.
  apply IH. intros w Hw. by apply Hl, list_elem_of_further.
Qed.

Section MergeSort.
Variable comp : RequestedTag → RequestedTag → JsNumber.

Lemma mergeChunks_nil_r leftChunk : mergeChunks comp leftChunk [] = leftChunk.
Proof. by destruct leftChunk. Qed.

Lemma mergeChunks_cons x leftChunk y rightChunk :
  mergeChunks comp (x :: leftChunk) (y :: rightChunk) =
  if jsLeZero (comp x y) then x :: mergeChunks comp leftChunk (y :: rightChunk)
  else y :: mergeChunks comp (x :: leftChunk) rightChunk.
Proof. done. Qed.

Lemma mergeChunks_permutation leftChunk rightChunk :
  mergeChunks comp leftChunk rightChunk ≡ₚ leftChunk ++ rightChunk.
Proof.
  revert rightChunk. induction leftChunk as [|x leftChunk IHl]; intros rightChunk; [by destruct rightChunk|].
  induction rightChunk as [|y rightChunk IHr].
  - by rewrite mergeChunks_nil_r, app_nil_r.
  - rewrite mergeChunks_cons. destruct (jsLeZero (comp x y)).
    + by rewrite IHl.
    + rewrite IHr. by rewrite (Permutation_middle (x :: leftChunk) rightChunk y).
Qed.

Lemma pass_permutation chunks : mjoin (pass comp chunks) ≡ₚ mjoin chunks.
Proof.
  induction chunks as [| |leftChunk rightChunk rest IH] using pairs_ind; [done..|].
  cbn [pass]. rewrite !mjoin_cons, IH.
  by rewrite mergeChunks_permutation, app_assoc.
Qed.

Lemma pass_length chunks :
  (2 ≤ length chunks → length (pass comp chunks) < length chunks)%nat.
Proof.
  induction chunks as [| |leftChunk rightChunk rest IH] using pairs_ind;
    simpl; [lia..|]. intros _.
  destruct rest as [|a [|b rest]]; simpl in *; lia.
Qed.

Lemma passes_permutation fuel chunks :
  mjoin (passes comp fuel chunks) ≡ₚ mjoin chunks.
Proof.
  revert chunks. induction fuel as [|fuel IH]; intros chunks; [done|].
  destruct chunks as [|leftChunk [|rightChunk rest]]; [done..|].
  cbn [passes]. by rewrite IH, pass_permutation.
Qed.

Lemma passes_single fuel chunks :
  (length chunks ≤ S fuel)%nat → (length (passes comp fuel chunks) ≤ 1)%nat.
Proof.
  revert chunks. induction fuel as [|fuel IH]; intros chunks Hlen.
  - by destruct chunks as [|? [|? ?]].
  - destruct chunks as [|leftChunk [|rightChunk rest]]; [simpl; lia..|].
    cbn [passes]. apply IH.
    pose proof (pass_length (leftChunk :: rightChunk :: rest)). simpl in *. lia.
Qed.

Lemma stable_reference_permutation l : stable_reference l comp ≡ₚ l.
Proof.
  unfold stable_reference. rewrite passes_permutation.
  induction l as [|x l IH]; [done|].
  rewrite fmap_cons, mjoin_cons, IH. done.
Qed.

Lemma consistentOn_subseteq l l' :
  l' ⊆ l → consistentOn comp l → consistentOn comp l'.
Proof.
  intros Hsub [Htotal Htrans]. split.
  - intros a b Ha Hb. apply Htotal; by apply Hsub.
  - intros a b c Ha Hb Hc. apply Htrans; by apply Hsub.
Qed.

Section Consistent.
Variable universe : list RequestedTag.
Hypothesis consistent : consistentOn comp universe.

Lemma mergeChunks_sorted leftChunk rightChunk :
  leftChunk ⊆ universe → rightChunk ⊆ universe →
  StronglySorted (comesFirst comp) leftChunk →
  StronglySorted (comesFirst comp) rightChunk →
  StronglySorted (comesFirst comp) (mergeChunks comp leftChunk rightChunk).
Proof.
  destruct consistent as [Htotal Htrans].
  intros Hl Hr Hleft. revert rightChunk Hr.
  induction Hleft as [|x leftChunk Hleft IHl Hx]; intros rightChunk Hr Hright;
    [by destruct rightChunk|].
  induction Hright as [|y rightChunk Hright IHr Hy].
  - rewrite mergeChunks_nil_r. by constructor.
  - rewrite mergeChunks_cons. destruct (jsLeZero (comp x y)) eqn:Hxy.
    + constructor.
      * apply IHl; [set_solver|done|by constructor].
      * rewrite mergeChunks_permutation. apply Forall_app. split; [done|].
        constructor; [done|].
        rewrite Forall_forall in Hy |- *. intros z Hz.
        apply (Htrans x y z); [set_solver..|done|by apply Hy].
    + assert (comesFirst comp y x) as Hyx.
      { destruct (Htotal x y) as [Hc|Hc]; [set_solver..| |done].
        unfold comesFirst in Hc. congruence. }
      constructor.
      * apply IHr. set_solver.
      * rewrite mergeChunks_permutation. apply Forall_app. split; [|done].
        constructor; [done|].
        rewrite Forall_forall in Hx |- *. intros z Hz.
        apply (Htrans y x z); [set_solver..|done|by apply Hx].
Qed.

Lemma mergeChunks_ties z leftChunk rightChunk :
  z ∈ universe → leftChunk ⊆ universe → rightChunk ⊆ universe →
  StronglySorted (comesFirst comp) leftChunk →
  List.filter (tied comp z) (mergeChunks comp leftChunk rightChunk) =
  List.filter (tied comp z) (leftChunk ++ rightChunk).
Proof.
  destruct consistent as [Htotal Htrans].
  intros Hz Hl Hr Hleft. revert rightChunk Hr.
  induction Hleft as [|x leftChunk Hleft IHl Hx]; intros rightChunk Hr;
    [by destruct rightChunk|].
  induction rightChunk as [|y rightChunk IHr].
  - by rewrite mergeChunks_nil_r, app_nil_r.
  - rewrite mergeChunks_cons. destruct (jsLeZero (comp x y)) eqn:Hxy.
    + cbn [List.filter app]. rewrite IHl; [done|set_solver|done].
    + cbn [List.filter]. rewrite IHr by set_solver.
      rewrite !List.filter_app. cbn [List.filter].
      destruct (tied comp z y) eqn:Hzy; [|done].
      change (if tied comp z x then x :: List.filter (tied comp z) leftChunk
              else List.filter (tied comp z) leftChunk)
        with (List.filter (tied comp z) (x :: leftChunk)).
      assert (List.filter (tied comp z) (x :: leftChunk) = []) as ->; [|done].
      apply filter_none.
      intros w Hw. apply not_true_iff_false. intros Hzw.
      assert (x ∈ universe) as Hx0 by apply Hl, list_elem_of_here.
      assert (y ∈ universe) as Hy0 by apply Hr, list_elem_of_here.
      assert (w ∈ universe) as Hw0 by by apply Hl.
      unfold tied in Hzy, Hzw.
      apply andb_true_iff in Hzy as [Hzy1 Hzy2].
      apply andb_true_iff in Hzw as [Hzw1 Hzw2].
      assert (comesFirst comp x w) as Hxw.
      { apply elem_of_cons in Hw as [->|Hw].
        - by destruct (Htotal x x).
        - rewrite Forall_forall in Hx. by apply Hx. }
      assert (comesFirst comp w y) as Hwy by by apply (Htrans w z y).
      assert (comesFirst comp x y) as Hc by by apply (Htrans x w y).
      unfold comesFirst in Hc. congruence.
Qed.

Definition sortedChunks (chunks : list (list RequestedTag)) : Prop :=
  Forall (λ chunk, chunk ⊆ universe ∧ StronglySorted (comesFirst comp) chunk) chunks.

Lemma pass_sorted chunks : sortedChunks chunks → sortedChunks (pass comp chunks).
Proof.
  induction chunks as [| |leftChunk rightChunk rest IH] using pairs_ind; [done..|].
  intros Hs. apply Forall_cons in Hs as [[Hl1 Hl2] Hs].
  apply Forall_cons in Hs as [[Hr1 Hr2] Hs].
  cbn [pass]. apply Forall_cons. split.
  - split; [|by apply mergeChunks_sorted].
    intros w Hw. rewrite mergeChunks_permutation in Hw.
    apply elem_of_app in Hw as [Hw|Hw]; [by apply Hl1|by apply Hr1].
  - by apply IH.
Qed.

Lemma pass_ties z chunks :
  z ∈ universe → sortedChunks chunks →
  List.filter (tied comp z) (mjoin (pass comp chunks)) =
  List.filter (tied comp z) (mjoin chunks).
Proof.
  intros Hz.
  induction chunks as [| |leftChunk rightChunk rest IH] using pairs_ind; [done..|].
  intros Hs. apply Forall_cons in Hs as [[Hl1 Hl2] Hs].
  apply Forall_cons in Hs as [[Hr1 Hr2] Hs].
  cbn [pass]. rewrite !mjoin_cons, !List.filter_app.
  rewrite IH, mergeChunks_ties by done.
  by rewrite List.filter_app, app_assoc.
Qed.

Lemma passes_sorted fuel chunks :
  sortedChunks chunks → sortedChunks (passes comp fuel chunks).
Proof.
  revert chunks. induction fuel as [|fuel IH]; intros chunks Hs; [done|].
  destruct chunks as [|leftChunk [|rightChunk rest]]; [done..|].
  cbn [passes]. by apply IH, pass_sorted.
Qed.

Lemma passes_ties z fuel chunks :
  z ∈ universe → sortedChunks chunks →
  List.filter (tied comp z) (mjoin (passes comp fuel chunks)) =
  List.filter (tied comp z) (mjoin chunks).
Proof.
  intros Hz. revert chunks. induction fuel as [|fuel IH]; intros chunks Hs; [done|].
  destruct chunks as [|leftChunk [|rightChunk rest]]; [done..|].
  cbn [passes]. rewrite IH by by apply pass_sorted. by apply pass_ties.
Qed.

Lemma singletons_sorted l :
  l ⊆ universe → sortedChunks ((λ x, [x]) <$> l).
Proof.
  intros Hl. apply Forall_fmap, Forall_forall. intros x Hx. split.
  - intros w Hw. apply elem_of_cons in Hw as [->|Hw]; [by apply Hl|].
    by apply elem_of_nil in Hw.
  - repeat constructor.
Qed.

End Consistent.

Lemma mjoin_singletons (l : list RequestedTag) : mjoin ((λ x, [x]) <$> l) = l.
Proof.
  induction l as [|x l IH]; [done|].
  rewrite fmap_cons, mjoin_cons, IH. done.
Qed.

Lemma stable_reference_sorted l :
  consistentOn comp l →
  StronglySorted (comesFirst comp) (stable_reference l comp).
Proof.
  intros Hcons. unfold stable_reference.
  assert (sortedChunks l (passes comp (length l) ((λ x, [x]) <$> l))) as Hs.
  { by apply passes_sorted, singletons_sorted. }
  assert (length (passes comp (length l) ((λ x, [x]) <$> l)) ≤ 1)%nat as Hlen.
  { apply passes_single. rewrite length_fmap. lia. }
  destruct (passes comp (length l) ((λ x, [x]) <$> l)) as [|chunk [|? ?]];
    [constructor| |simpl in Hlen; lia].
  apply Forall_cons in Hs as [[_ Hs] _]. simpl. by rewrite app_nil_r.
Qed.

Lemma stable_reference_ties l x :
  consistentOn comp l → x ∈ l →
  List.filter (tied comp x) (stable_reference l comp) =
  List.filter (tied comp x) l.
Proof.
  intros Hcons Hx. unfold stable_reference.
  rewrite (passes_ties l Hcons); [|done|by apply singletons_sorted].
  by rewrite mjoin_singletons.
Qed.

End MergeSort.

Lemma reference_contract : @StableSort reference.
Proof.
  split; simpl.
  - intros l comp. apply stable_reference_permutation.
  - intros l comp. apply stable_reference_sorted.
  - intros l comp x. apply stable_reference_ties.
Qed.

(** ** Claims about the registry builder *)

Section RegistryClaims.
Context `{Collaborators}.

Lemma accepted_rejection s : accepted s ↔ rejection s = None.
Proof.
  unfold accepted, rejection. split.
  - intros (t & -> & -> & Hkey). by rewrite bool_decide_eq_false_2.
  - destruct (bcp47_parse s) as [t|]; [|done].
    destruct (truthy (lang_language (language t))) eqn:Ht; [|done].
    case_bool_decide as Hkey; [done|]. intros _. by exists t.
Qed.

Lemma firstRejection_accepted tags :
  Forall accepted tags → firstRejection tags = None ∧ acceptedPrefix tags = tags.
Proof.
  induction 1 as [|s tags Hs _ [IH1 IH2]]; simpl; [done|].
  apply accepted_rejection in Hs. rewrite Hs. by rewrite IH1, IH2.
Qed.

Lemma firstRejection_None tags :
  firstRejection tags = None → acceptedPrefix tags = tags.
Proof.
  induction tags as [|s tags IH]; simpl; [done|].
  destruct (rejection s); [done|]. intros Hr. by rewrite IH.
Qed.

Lemma firstRejection_middle front s back e :
  Forall accepted front → rejection s = Some e →
  firstRejection (front ++ s :: back) = Some e.
Proof.
  induction 1 as [|s' front Hs' _ IH]; simpl; intros Hs.
  - by rewrite Hs.
  - apply accepted_rejection in Hs'. rewrite Hs'. by apply IH.
Qed.

Lemma languages_fst tags this :
  fst (languages tags this) =
  match tags with
  | [] => Throw NoLanguagesDefined
  | _ => match firstRejection tags with
         | Some e => Throw e
         | None => Normal ()
         end
  end.
Proof.
  pose proof (languages_outcome tags this) as Hout.
  destruct tags as [|first tags]; [by rewrite Hout|].
  destruct Hout as (m & _ & ->). by destruct (firstRejection (first :: tags)).
Qed.

Lemma firstRejection_not_NoLanguagesDefined tags :
  firstRejection tags ≠ Some NoLanguagesDefined.
Proof.
  induction tags as [|s tags IH]; simpl; [done|].
  destruct (rejection s) as [e|] eqn:Hs; [|done].
  unfold rejection in Hs. intros [= ->].
  destruct (bcp47_parse s); [|done]. by repeat case_match.
Qed.

(** C1: after a call of [languages(tags)] that returns, [parse] applied to
    [null], to [undefined] or to the empty string returns the array whose
    only element is [tags[0]], and so [get(null)] is [tags[0]]. *)
Theorem default_for_missing_priority_list :
  ∀ (tags : list string) (this this' : AcceptLanguage) (pl : PriorityList),
    languages tags this = (Normal (), this') →
    pl = PlNull ∨ pl = PlUndefined ∨ pl = PlString "" →
    ∃ first,
      tags !! 0%nat = Some first
      ∧ defaultLanguageTag this' = Some first
      ∧ parse pl this' = (Normal [Some first], this')
      ∧ get pl this' = (Normal (Some (Some first)), this')
      ∧ get PlNull this' = (Normal (Some (Some first)), this').
Proof.
  intros tags this this' pl Hrun Hpl.
  pose proof (languages_outcome tags this) as Hout.
  destruct tags as [|first tags]; [congruence|].
  destruct Hout as (m & _ & Hout). rewrite Hrun in Hout.
  destruct (firstRejection (first :: tags)); [done|].
  injection Hout as ->. exists first. split; [done|]. split; [done|].
  assert (parse pl {| languageTagsWithValues := m;
                      defaultLanguageTag := Some first |}
          = (Normal [Some first],
             {| languageTagsWithValues := m;
                defaultLanguageTag := Some first |})) as Hparse.
  { rewrite parse_outcome. by destruct Hpl as [->|[->| ->]]. }
  split; [exact Hparse|]. split.
  - by apply (get_outcome _ _ _ []).
  - apply (get_outcome _ _ _ []). by rewrite parse_outcome.
Qed.


(** The fields after a call of [languages] that returns. *)
Lemma languages_returned_fields tags this this' :
  languages tags this = (Normal (), this') →
  (∀ key, languageTagsWithValues this' !! key
          = extendBucket None (bucketOf key tags))
  ∧ defaultLanguageTag this' = tags !! 0%nat.
Proof.
  intros Hrun.
  pose proof (languages_outcome tags this) as Hout.
  destruct tags as [|first tags]; [congruence|].
  destruct Hout as (m & Hm & Hout). rewrite Hrun in Hout.
  destruct (firstRejection (first :: tags)) as [e|] eqn:Hfirst; [done|].
  rewrite (firstRejection_None _ Hfirst) in Hm.
  by injection Hout as ->.
Qed.

(** C7, as the code has it: a call of [languages(tags)] that returns has
    replaced the registry by the buckets of [tags] alone, whatever it held
    before, and has set the default to [tags[0]]; a call that throws for an
    empty list leaves the fields as they were; a call that throws for a
    tag, whatever the error, leaves the default as it was, while the
    registry has become the buckets of the tags in front of that tag. *)
Theorem languages_effect_on_fields :
  ∀ (tags : list string) (this this' : AcceptLanguage) (outcome : Completion ()),
    languages tags this = (outcome, this') →
    match outcome with
    | Normal _ =>
        (∀ key, languageTagsWithValues this' !! key
                = extendBucket None (bucketOf key tags))
        ∧ is_Some (tags !! 0%nat)
        ∧ defaultLanguageTag this' = tags !! 0%nat
        ∧ ∀ other, snd (languages tags other) = this'
    | Throw NoLanguagesDefined => tags = [] ∧ this' = this
    | Throw _ =>
        defaultLanguageTag this' = defaultLanguageTag this
        ∧ ∀ key, languageTagsWithValues this' !! key
                 = extendBucket None (bucketOf key (acceptedPrefix tags))
    end.
Proof.
  intros tags this this' outcome Hrun.
  pose proof (languages_outcome tags this) as Hout.
  destruct tags as [|first tags].
  { rewrite Hrun in Hout. by injection Hout as -> ->. }
  destruct Hout as (m & Hm & Hout). rewrite Hrun in Hout.
  pose proof (firstRejection_not_NoLanguagesDefined (first :: tags)) as Hnot.
  destruct (firstRejection (first :: tags)) as [e|] eqn:Hfirst.
  - injection Hout as -> ->. destruct e; [done|done..].
  - rewrite (firstRejection_None _ Hfirst) in Hm.
    injection Hout as -> ->. cbn [languageTagsWithValues defaultLanguageTag].
    split; [done|]. split; [by eexists|]. split; [done|].
    intros other.
    destruct (languages_outcome (first :: tags) other) as (m' & Hm' & ->).
    rewrite (firstRejection_None _ Hfirst) in Hm'.
    rewrite Hfirst. cbn [snd]. f_equal. apply map_eq. intros key.
    by rewrite Hm, Hm'.
Qed.

End RegistryClaims.

(** ** Claims about the negotiator *)

Section NegotiatorClaims.
Context `{Collaborators}.

Lemma fmap_mjoin_matches {A} (f : A → list LanguageTagWithValue) (l : list A) :
  value <$> mjoin (f <$> l) = mjoin ((λ c, value <$> f c) <$> l).
Proof.
  induction l as [|c l IH]; [done|].
  cbn [fmap list_fmap mjoin list_join]. rewrite fmap_app. f_equal. exact IH.
Qed.

Lemma bucketOf_elem key tags d :
  d ∈ bucketOf key tags ↔ value d ∈ tags ∧ supportedTag (value d) = Some (key, d).
Proof.
  unfold bucketOf. rewrite list_elem_of_omap. split.
  - intros (s & Hs & Hd).
    destruct (supportedTag s) as [[key' entry]|] eqn:Hsup; [|done].
    destruct (String.eqb_spec key' key) as [->|]; [|done].
    injection Hd as ->.
    assert (value d = s) as ->; [|done].
    unfold supportedTag in Hsup. repeat case_match; try done.
    by injection Hsup as _ <-.
  - intros [Hin Hsup]. exists (value d). split; [done|].
    by rewrite Hsup, String.eqb_refl.
Qed.

(** In a registry built by [languages] the matches of a requested tag are
    taken among the registered tags of its primary language, in the order of
    registration. *)
Lemma matchesFor_built tags this0 this languageTag :
  languages tags this0 = (Normal (), this) →
  value <$> matchesFor this languageTag = matchesAmong tags languageTag.
Proof.
  intros Hrun. unfold matchesFor, matchesAmong.
  destruct (bcp47_parse (tag languageTag)) as [r|]; [|done].
  destruct (languages_returned_fields _ _ _ Hrun) as (Hm & _).
  rewrite Hm. by destruct (bucketOf _ tags).
Qed.

Lemma matchesFor_built_elem tags this0 this languageTag d :
  languages tags this0 = (Normal (), this) →
  d ∈ matchesFor this languageTag →
  ∃ key r, supportedTag (value d) = Some (key, d)
           ∧ bcp47_parse (tag languageTag) = Some r
           ∧ reachesPush (langtag d) r = true.
Proof.
  intros Hrun. unfold matchesFor.
  destruct (bcp47_parse (tag languageTag)) as [r|]; [|by intros ?%elem_of_nil].
  destruct (languages_returned_fields _ _ _ Hrun) as (Hm & _).
  rewrite Hm.
  destruct (bucketOf _ tags) as [|e bucket] eqn:Hb; cbn [extendBucket];
    [by intros ?%elem_of_nil|].
  rewrite list_elem_of_In, filter_In, <-list_elem_of_In, <-Hb.
  intros [Hd Hreach]. apply bucketOf_elem in Hd as [_ Hd]. eauto.
Qed.

Lemma languages_returned_ownKeys tags this0 this :
  languages tags this0 = (Normal (), this) → ownKeysNotInherited this.
Proof.
  intros Hrun.
  assert (tags ≠ []) as Hne.
  { intros ->. by rewrite (languages_outcome [] this0) in Hrun. }
  pose proof (languages_ownKeysNotInherited tags this0 Hne) as Hown.
  by rewrite Hrun in Hown.
Qed.

Lemma throwsAt_built tags this0 this l :
  languages tags this0 = (Normal (), this) →
  existsb (throwsAt this) l = existsb requestsInherited l.
Proof.
  intros Hrun. apply existsb_ext_in. intros c _.
  eapply throwsAt_requestsInherited, languages_returned_ownKeys, Hrun.
Qed.

Lemma matched_built tags this0 this s :
  languages tags this0 = (Normal (), this) →
  matched this s = mjoin (matchesAmong tags <$> parseAndSortLanguageTags s).
Proof.
  intros Hrun. rewrite matched_concat, fmap_mjoin_matches. f_equal.
  apply list_fmap_ext. intros _ c _. by eapply matchesFor_built.
Qed.

Lemma parse_built tags this0 this s :
  languages tags this0 = (Normal (), this) →
  truthyString s = true →
  parse (PlString s) this =
  (if existsb requestsInherited (parseAndSortLanguageTags s)
   then Throw NotIterable
   else Normal match mjoin (matchesAmong tags <$> parseAndSortLanguageTags s) with
               | [] => [tags !! 0%nat]
               | result => Some <$> result
               end, this).
Proof.
  intros Hrun Hs.
  rewrite parse_outcome, Hs, (throwsAt_built _ _ _ _ Hrun), (matched_built _ _ _ _ Hrun).
  by destruct (languages_returned_fields _ _ _ Hrun) as (_ & ->).
Qed.

Lemma languages_accepted tags this :
  tags ≠ [] → Forall accepted tags →
  languages tags this = (Normal (), snd (languages tags this)).
Proof.
  intros Hne Hall.
  pose proof (languages_fst tags this) as Hfst.
  destruct tags as [|first tags]; [done|].
  destruct (firstRejection_accepted _ Hall) as [Hfirst _].
  rewrite Hfirst in Hfst. by destruct (languages _ this) as [c st]; simpl in *; subst.
Qed.

Context `{!StableSort}.

Lemma sorted_singleton s c :
  requestedTags s = [c] → parseAndSortLanguageTags s = [c].
Proof.
  intros Hs. unfold parseAndSortLanguageTags. rewrite Hs.
  apply Permutation_singleton_r, stable_permutation.
Qed.

Lemma sorted_nil s :
  requestedTags s = [] → parseAndSortLanguageTags s = [].
Proof.
  intros Hs. unfold parseAndSortLanguageTags. rewrite Hs.
  apply Permutation_nil_r, stable_permutation.
Qed.

Lemma elem_of_sorted s c :
  c ∈ parseAndSortLanguageTags s ↔ c ∈ requestedTags s.
Proof. unfold parseAndSortLanguageTags. by rewrite stable_permutation. Qed.

(** A registered tag that is too specific for every requested tag is not in
    [result]. *)
Lemma too_specific_not_matched tags this0 this s key candidate :
  languages tags this0 = (Normal (), this) →
  supportedTag (value candidate) = Some (key, candidate) →
  (∀ c r, c ∈ requestedTags s → bcp47_parse (tag c) = Some r →
     ∃ prop, specifies prop (langtag candidate) = true ∧ specifies prop r = false) →
  value candidate ∉ matched this s.
Proof.
  intros Hrun Hcand Hwide. rewrite matched_concat.
  intros (d & Hv & Hd)%list_elem_of_fmap.
  apply list_elem_of_join in Hd as (group & Hd & Hgroup).
  apply list_elem_of_fmap in Hgroup as (c & -> & Hc).
  apply elem_of_sorted in Hc.
  destruct (matchesFor_built_elem _ _ _ _ _ Hrun Hd) as (key' & r & Hsup & Hr & Hreach).
  rewrite <-Hv, Hcand in Hsup. injection Hsup as _ <-.
  destruct (Hwide c r Hc Hr) as (prop & Hspec & Hnot).
  rewrite (reachesPush_too_specific prop _ _ Hspec Hnot) in Hreach. done.
Qed.

Lemma zh_Hant_example this0 :
  bcp47_parse "zh-Hant" = Some (plainTag "zh" (Some "Hant") None) →
  bcp47_parse "zh" = Some (plainTag "zh" None None) →
  parse (PlString "zh") (snd (languages ["zh-Hant"] this0))
  = (Normal [Some "zh-Hant"], snd (languages ["zh-Hant"] this0)).
Proof.
  intros Hzh_Hant Hzh.
  assert (languages ["zh-Hant"] this0
          = (Normal (), snd (languages ["zh-Hant"] this0))) as Hrun.
  { apply languages_accepted; [done|]. repeat constructor.
    eexists. split; [exact Hzh_Hant|]. split; [done|]. by apply not_inherited. }
  rewrite (parse_built _ _ _ _ Hrun) by done.
  rewrite (sorted_singleton "zh" {| tag := "zh"; quality := Num 1 |}) by done.
  cbn [existsb fmap list_fmap mjoin list_join].
  unfold requestsInherited, matchesAmong, bucketOf, supportedTag.
  cbn [tag omap list_omap]. rewrite Hzh, Hzh_Hant. done.
Qed.

Lemma en_example this0 :
  bcp47_parse "en" = Some (plainTag "en" None None) →
  bcp47_parse "en-US" = Some (plainTag "en" None (Some "US")) →
  parse (PlString "en-US") (snd (languages ["en"] this0))
  = (Normal [Some "en"], snd (languages ["en"] this0)).
Proof.
  intros Hen Hen_US.
  assert (languages ["en"] this0 = (Normal (), snd (languages ["en"] this0))) as Hrun.
  { apply languages_accepted; [done|]. repeat constructor.
    eexists. split; [exact Hen|]. split; [done|]. by apply not_inherited. }
  rewrite (parse_built _ _ _ _ Hrun) by done.
  rewrite (sorted_singleton "en-US" {| tag := "en-US"; quality := Num 1 |}) by done.
  cbn [existsb fmap list_fmap mjoin list_join].
  unfold requestsInherited, matchesAmong, bucketOf, supportedTag.
  cbn [tag omap list_omap]. rewrite Hen_US, Hen. done.
Qed.

(** C2: a registered tag that specifies a category which the requested tag
    does not specify never reaches [result.push] for that requested tag, so
    it is not among its matches, and when this is so for every requested tag
    its value is not in [result] when the outer loop is over; with the registry [['zh-Hant']] the
    request ["zh"] gives the default alone; a registered tag that specifies
    no category reaches [result.push] whatever is requested, as ['en'] does
    for the request ["en-US"]. *)
Theorem too_specific_candidate_rejected :
  (∀ (definedLangTag requestedLangTag : LanguageTag) (prop : TagProperty),
     specifies prop definedLangTag = true →
     specifies prop requestedLangTag = false →
     reachesPush definedLangTag requestedLangTag = false)
  ∧ (∀ (this : AcceptLanguage) (languageTag : RequestedTag)
       (requestedLangTag : LanguageTag) (candidate : LanguageTagWithValue)
       (prop : TagProperty),
       bcp47_parse (tag languageTag) = Some requestedLangTag →
       specifies prop (langtag candidate) = true →
       specifies prop requestedLangTag = false →
       candidate ∉ matchesFor this languageTag)
  ∧ (∀ (tags : list string) (this0 this : AcceptLanguage) (s key : string)
       (candidate : LanguageTagWithValue),
       languages tags this0 = (Normal (), this) →
       supportedTag (value candidate) = Some (key, candidate) →
       (∀ c r, c ∈ requestedTags s → bcp47_parse (tag c) = Some r →
          ∃ prop, specifies prop (langtag candidate) = true
                  ∧ specifies prop r = false) →
       (value candidate ∉ matched this s)
       ∧ (∀ result,
            forOf (parseAndSortLanguageTags s) (outer this) [] = Normal result →
            value candidate ∉ result))
  ∧ (bcp47_parse "zh-Hant" = Some (plainTag "zh" (Some "Hant") None) →
     bcp47_parse "zh" = Some (plainTag "zh" None None) →
     ∀ this0,
       parse (PlString "zh") (snd (languages ["zh-Hant"] this0))
       = (Normal [Some "zh-Hant"], snd (languages ["zh-Hant"] this0)))
  ∧ (∀ (definedLangTag requestedLangTag : LanguageTag),
       (∀ prop, specifies prop definedLangTag = false) →
       reachesPush definedLangTag requestedLangTag = true)
  ∧ (bcp47_parse "en" = Some (plainTag "en" None None) →
     bcp47_parse "en-US" = Some (plainTag "en" None (Some "US")) →
     ∀ this0,
       parse (PlString "en-US") (snd (languages ["en"] this0))
       = (Normal [Some "en"], snd (languages ["en"] this0))).
Proof.
  split; [intros d r prop; apply reachesPush_too_specific|].
  split.
  { intros this languageTag r candidate prop Hr Hspec Hnot.
    unfold matchesFor. rewrite Hr.
    destruct (languageTagsWithValues this !! _); [|by intros ?%elem_of_nil].
    rewrite list_elem_of_In, filter_In. intros [_ Hreach].
    rewrite (reachesPush_too_specific prop _ _ Hspec Hnot) in Hreach. done. }
  split.
  { intros tags this0 this s key candidate Hrun Hcand Hwide.
    pose proof (too_specific_not_matched _ _ _ _ _ _ Hrun Hcand Hwide) as Hnot.
    split; [exact Hnot|]. intros result Hloop. rewrite outer_loop in Hloop.
    destruct (existsb _ _); [done|]. by injection Hloop as <-. }
  split; [intros Hzh_Hant Hzh this0; by apply zh_Hant_example|].
  split; [intros d r; apply reachesPush_unspecific|].
  intros Hen Hen_US this0. by apply en_example.
Qed.

Lemma unrecognized_no_match this c : unrecognized this c → matchesFor this c = [].
Proof.
  unfold unrecognized, matchesFor, readProperty.
  destruct (bcp47_parse (tag c)); [|done].
  by destruct (languageTagsWithValues this !! _).
Qed.

Lemma unrecognized_not_thrown this c : unrecognized this c → throwsAt this c = false.
Proof.
  unfold unrecognized, throwsAt.
  destruct (bcp47_parse (tag c)); [|done]. by intros ->.
Qed.

Lemma throwsAt_sorted this s :
  existsb (throwsAt this) (parseAndSortLanguageTags s)
  = existsb (throwsAt this) (requestedTags s).
Proof. apply existsb_Permutation, stable_permutation. Qed.

Lemma requestsInherited_sorted s :
  existsb requestsInherited (parseAndSortLanguageTags s)
  = existsb requestsInherited (requestedTags s).
Proof. apply existsb_Permutation, stable_permutation. Qed.

Lemma mjoin_nil {A B} (f : A → list B) (l : list A) :
  (∀ x, x ∈ l → f x = []) → mjoin (f <$> l) = [].
Proof.
  induction l as [|x l IH]; intros Hnone; [done|].
  rewrite fmap_cons, mjoin_cons, (Hnone x) by apply list_elem_of_here.
  apply IH. intros y Hy. by apply Hnone, list_elem_of_further.
Qed.

Lemma unrecognized_default this s :
  truthyString s = true →
  (∀ c, c ∈ requestedTags s → unrecognized this c) →
  parse (PlString s) this = (Normal [defaultLanguageTag this], this).
Proof.
  intros Hs Hall. rewrite parse_outcome, Hs, throwsAt_sorted.
  assert (existsb (throwsAt this) (requestedTags s) = false) as ->.
  { apply existsb_false. intros c Hc. by apply unrecognized_not_thrown, Hall. }
  rewrite matched_concat, mjoin_nil; [done|].
  intros c Hc. by apply unrecognized_no_match, Hall, elem_of_sorted.
Qed.

Lemma parse_throws_at this s c :
  truthyString s = true → c ∈ requestedTags s → throwsAt this c = true →
  parse (PlString s) this = (Throw NotIterable, this).
Proof.
  intros Hs Hc Hthrows. rewrite parse_outcome, Hs, throwsAt_sorted.
  assert (existsb (throwsAt this) (requestedTags s) = true) as ->; [|done].
  apply existsb_exists. exists c. by rewrite <-list_elem_of_In.
Qed.

Lemma parse_returns this pl :
  (∀ s c, pl = PlString s → c ∈ requestedTags s → throwsAt this c = false) →
  ∃ first rest, parse pl this = (Normal (first :: rest), this).
Proof.
  intros Hnone. rewrite parse_outcome. destruct pl as [| |s]; eauto.
  destruct (truthyString s); eauto. rewrite throwsAt_sorted.
  assert (existsb (throwsAt this) (requestedTags s) = false) as ->.
  { apply existsb_false. intros c Hc. by eapply Hnone. }
  destruct (matched this s); simpl; eauto.
Qed.

(** C5, where the code departs from it: [parse] throws a [TypeError] when a
    requested tag has for primary language the name of a property that the
    registry inherits and does not own, as ["toString"] is for every
    registry that [languages] builds; [get] then throws as well.  For every
    other argument [parse] returns, and with a result that is not empty, so
    that [get] returns its first element; and a list in which no tag is
    recognized, such as [",,,"] or ["   "], gives the default alone. *)
Theorem parse_throws_for_inherited_language :
  ∀ (this : AcceptLanguage),
    (bcp47_parse "toString" = Some (plainTag "toString" None None) →
     languageTagsWithValues this !! "toString" = None →
     parse (PlString "toString") this = (Throw NotIterable, this)
     ∧ get (PlString "toString") this = (Throw NotIterable, this))
    ∧ (∀ s c, truthyString s = true → c ∈ requestedTags s →
         throwsAt this c = true →
         parse (PlString s) this = (Throw NotIterable, this)
         ∧ get (PlString s) this = (Throw NotIterable, this))
    ∧ (∀ pl,
         (∀ s c, pl = PlString s → c ∈ requestedTags s → throwsAt this c = false) →
         ∃ first rest,
           parse pl this = (Normal (first :: rest), this)
           ∧ get pl this = (Normal (Some first), this))
    ∧ (∀ s, (∀ c, c ∈ requestedTags s → unrecognized this c) →
         parse (PlString s) this = (Normal [defaultLanguageTag this], this))
    ∧ parse (PlString ",,,") this = (Normal [defaultLanguageTag this], this)
    ∧ parse (PlString "   ") this = (Normal [defaultLanguageTag this], this).
Proof.
  intros this.
  assert (∀ s c, truthyString s = true → c ∈ requestedTags s →
            throwsAt this c = true →
            parse (PlString s) this = (Throw NotIterable, this)
            ∧ get (PlString s) this = (Throw NotIterable, this)) as Hthrows.
  { intros s c Hs Hc Hc'. pose proof (parse_throws_at _ _ _ Hs Hc Hc') as Hp.
    split; [done|]. by rewrite get_of_parse, Hp. }
  split.
  { intros HtoString Hown.
    apply (Hthrows "toString" {| tag := "toString"; quality := Num 1 |}).
    - done.
    - apply list_elem_of_here.
    - unfold throwsAt, readProperty. cbn [tag]. rewrite HtoString.
      cbn [plainTag language lang_language propertyKey]. by rewrite Hown. }
  split; [exact Hthrows|]. split.
  { intros pl Hnone. destruct (parse_returns this pl Hnone) as (first & rest & Hp).
    exists first, rest. split; [done|]. by eapply get_outcome. }
  split.
  { intros s Hall. destruct (truthyString s) eqn:Hs.
    - by apply unrecognized_default.
    - by rewrite parse_outcome, Hs. }
  split.
  - apply unrecognized_default; [done|]. by intros c ?%elem_of_nil.
  - apply unrecognized_default; [done|]. by intros c ?%elem_of_nil.
Qed.

End NegotiatorClaims.

Section MoreNegotiatorClaims.
Context `{Collaborators}.

(** C8: [parse] and [get] leave the registry and the default as they are,
    and a second call of [parse] with the same argument gives the same
    result as the first. *)
Theorem negotiation_only_reads :
  ∀ (this : AcceptLanguage) (pl : PriorityList),
    snd (parse pl this) = this
    ∧ snd (get pl this) = this
    ∧ fst (parse pl (snd (parse pl this))) = fst (parse pl this)
    ∧ fst (get pl (snd (get pl this))) = fst (get pl this).
Proof.
  intros this pl.
  assert (snd (get pl this) = this) as Hg by by rewrite get_of_parse.
  by rewrite parse_snd, Hg.
Qed.

Lemma filter_length_Permutation {A} (P : A → bool) (l l' : list A) :
  l ≡ₚ l' → length (List.filter P l) = length (List.filter P l').
Proof.
  induction 1 as [|x l l' _ IH|x y l|l l' l'' _ IH1 _ IH2]; simpl.
  - done.
  - destruct (P x); simpl; by rewrite IH.
  - by destruct (P x), (P y).
  - by rewrite IH1.
Qed.

Lemma matches_counted this (d : LanguageTagWithValue) (l : list RequestedTag) :
  (length (List.filter (λ c, bool_decide (d ∈ matchesFor this c)) l)
   ≤ length (List.filter (λ v, bool_decide (v = value d))
               (value <$> mjoin (matchesFor this <$> l))))%nat.
Proof.
  induction l as [|c l IH]; [done|].
  cbn [fmap list_fmap mjoin list_join List.filter].
  rewrite fmap_app, List.filter_app, length_app.
  destruct (bool_decide (d ∈ matchesFor this c)) eqn:Hd;
    [|etrans; [apply IH|apply Nat.le_add_l]].
  apply bool_decide_eq_true in Hd.
  assert (value d ∈ List.filter (λ v, bool_decide (v = value d))
                      (value <$> matchesFor this c)) as Hin.
  { rewrite list_elem_of_In, filter_In, <-list_elem_of_In. split.
    - by apply list_elem_of_fmap_2.
    - by apply bool_decide_eq_true. }
  cbn [length]. apply (Nat.add_le_mono 1 _ _ _); [|apply IH].
  destruct (List.filter _ (value <$> matchesFor this c));
    [by apply elem_of_nil in Hin|simpl; lia].
Qed.

Lemma occurrences_Some v (l : list string) :
  occurrences v (Some <$> l)
  = length (List.filter (λ x, bool_decide (x = v)) l).
Proof.
  unfold occurrences. induction l as [|x l IH]; [done|].
  cbn [fmap list_fmap List.filter]. 
  destruct (decide (x = v)) as [->|Hne].
  - rewrite !bool_decide_eq_true_2 by done. simpl. by f_equal.
  - rewrite !bool_decide_eq_false_2 by congruence. done.
Qed.

Context `{!StableSort}.

Lemma en_twice_example this0 :
  bcp47_parse "en" = Some (plainTag "en" None None) →
  bcp47_parse "en-US" = Some (plainTag "en" None (Some "US")) →
  parse (PlString "en-US,en") (snd (languages ["en"] this0))
  = (Normal [Some "en"; Some "en"], snd (languages ["en"] this0)).
Proof.
  intros Hen Hen_US.
  assert (languages ["en"] this0 = (Normal (), snd (languages ["en"] this0))) as Hrun.
  { apply languages_accepted; [done|]. repeat constructor.
    eexists. split; [exact Hen|]. split; [done|]. by apply not_inherited. }
  rewrite (parse_built _ _ _ _ Hrun) by done.
  pose proof (stable_permutation (requestedTags "en-US,en") byQuality) as Hperm.
  fold (parseAndSortLanguageTags "en-US,en") in Hperm.
  change (requestedTags "en-US,en")
    with [{| tag := "en-US"; quality := Num 1 |}; {| tag := "en"; quality := Num 1 |}]
    in Hperm.
  symmetry in Hperm. apply Permutation_length_2_inv in Hperm.
  destruct Hperm as [-> | ->];
    cbn [existsb fmap list_fmap mjoin list_join];
    unfold requestsInherited, matchesAmong, bucketOf, supportedTag;
    cbn [tag omap list_omap]; rewrite Hen_US, Hen; done.
Qed.

(** C10: the values pushed for different requested tags are all kept: a
    registered tag occurs in the result of [parse] at least once for each
    requested tag it is a match of; with the registry [['en']] the request
    ["en-US,en"] gives [['en', 'en']]. *)
Theorem matches_not_deduplicated :
  (∀ (this : AcceptLanguage) (s : string) (d : LanguageTagWithValue)
     (result : list (option string)),
     truthyString s = true →
     fst (parse (PlString s) this) = Normal result →
     (length (List.filter (λ c, bool_decide (d ∈ matchesFor this c))
                (requestedTags s))
      ≤ occurrences (value d) result)%nat)
  ∧ (bcp47_parse "en" = Some (plainTag "en" None None) →
     bcp47_parse "en-US" = Some (plainTag "en" None (Some "US")) →
     ∀ this0,
       parse (PlString "en-US,en") (snd (languages ["en"] this0))
       = (Normal [Some "en"; Some "en"], snd (languages ["en"] this0))).
Proof.
  split; [|intros Hen Hen_US this0; by apply en_twice_example].
  intros this s d result Hs Hresult.
  rewrite parse_outcome, Hs in Hresult. cbn [fst] in Hresult.
  destruct (existsb (throwsAt this) (parseAndSortLanguageTags s)); [done|].
  injection Hresult as <-.
  rewrite (filter_length_Permutation _ _ (parseAndSortLanguageTags s)).
  2:{ symmetry. apply stable_permutation. }
  pose proof (matches_counted this d (parseAndSortLanguageTags s)) as Hcount.
  rewrite <-matched_concat in Hcount.
  destruct (matched this s) as [|v result] eqn:Hm; cbn iota.
  - etrans; [exact Hcount|]. simpl. lia.
  - change (Some v :: _) with (Some <$> (v :: result)).
    rewrite occurrences_Some. exact Hcount.
Qed.

End MoreNegotiatorClaims.

(** ** Claims about instances *)

Lemma callMethod_other {A} (al other : nat) (m : M A) (h h' : Heap) c :
  callMethod al m h = Some (c, h') → other ≠ al → h' !! other = h !! other.
Proof.
  unfold callMethod. destruct (h !! al) as [o|]; [|done].
  destruct (m (fields o)) as [c' this']. intros [= _ <-] Hne.
  by apply list_lookup_insert_ne.
Qed.

(** C9, at the input where the code departs from it: the instance made by
    the module function [create] has a [create] of its own, whose call gives
    a new instance with an empty registry and no default, and what is done
    to the new instance leaves the first one as it is; but the new instance
    has only the method of the class, and the call of its [create] returns
    [null] and makes no instance. *)
Theorem create_of_created_instance_returns_null :
  ∀ (h : Heap),
    let (al, h1) := create h in
    ∃ al2 h2,
      callCreate al h1 = Some (Some al2, h2)
      ∧ al2 ≠ al
      ∧ h1 !! al2 = None
      ∧ h2 !! al2 = Some {| fields := newAcceptLanguage; ownCreate := false |}
      ∧ h2 !! al = h1 !! al
      ∧ (∀ A (m : M A) c h3,
           callMethod al2 m h2 = Some (c, h3) → h3 !! al = h2 !! al)
      ∧ callCreate al2 h2 = Some (None, h2).
Proof.
  intros h. unfold create, alloc.
  exists (S (length h)), ((h ++ [{| fields := newAcceptLanguage; ownCreate := true |}])
                          ++ [{| fields := newAcceptLanguage; ownCreate := false |}])%list.
  assert (length (h ++ [{| fields := newAcceptLanguage; ownCreate := true |}])
          = S (length h)) as Hlen by (rewrite length_app; simpl; lia).
  assert ((h ++ [{| fields := newAcceptLanguage; ownCreate := true |}]) !! length h
          = Some {| fields := newAcceptLanguage; ownCreate := true |}) as Hal.
  { rewrite lookup_app_r by lia. by rewrite Nat.sub_diag. }
  assert (((h ++ [{| fields := newAcceptLanguage; ownCreate := true |}])
             ++ [{| fields := newAcceptLanguage; ownCreate := false |}])
            !! S (length h)
          = Some {| fields := newAcceptLanguage; ownCreate := false |}) as Hal2.
  { rewrite lookup_app_r by lia. by rewrite Hlen, Nat.sub_diag. }
  repeat split.
  - unfold callCreate. rewrite Hal. cbn [ownCreate].
    unfold ownCreateFunction, alloc. by rewrite Hlen.
  - lia.
  - apply lookup_ge_None. lia.
  - exact Hal2.
  - rewrite lookup_app_l by lia. done.
  - intros A m c h3 Hcall. eapply callMethod_other; [done|lia].
  - unfold callCreate. rewrite Hal2. done.
Qed.

(** ** Claims about the requested tags *)

Lemma Qle_bool_minus (a b : Q) : Qle_bool (b - a) 0 = Qle_bool b a.
Proof.
  destruct (Qle_bool b a) eqn:Hba.
  - apply Qle_bool_iff in Hba. apply Qle_bool_iff. lra.
  - apply not_true_is_false. intros Hd. apply Qle_bool_iff in Hd.
    apply not_true_iff_false in Hba. apply Hba, Qle_bool_iff. lra.
Qed.

Lemma comesFirst_byQuality a b :
  isFiniteNumber (quality a) = true → isFiniteNumber (quality b) = true →
  comesFirst byQuality a b ↔ descending a b.
Proof.
  unfold comesFirst, descending, byQuality.
  destruct (quality a), (quality b); try done. intros _ _. simpl.
  by rewrite Qle_bool_minus.
Qed.

Lemma tied_byQuality a b :
  isFiniteNumber (quality a) = true → isFiniteNumber (quality b) = true →
  tied byQuality a b = sameQuality a b.
Proof.
  unfold tied, sameQuality, jsNumEq, byQuality.
  destruct (quality a), (quality b); try done. intros _ _. simpl.
  by rewrite !Qle_bool_minus, andb_comm.
Qed.

Lemma byQuality_consistent l :
  Forall (λ c, isFiniteNumber (quality c) = true) l → consistentOn byQuality l.
Proof.
  rewrite Forall_forall. intros Hfinite. split.
  - intros a b Ha Hb. rewrite !comesFirst_byQuality by auto.
    unfold descending.
    pose proof (Hfinite a Ha). pose proof (Hfinite b Hb).
    destruct (quality a) as [| | |qa], (quality b) as [| | |qb]; try done. simpl.
    rewrite !Qle_bool_iff. lra.
  - intros a b c Ha Hb Hc. rewrite !comesFirst_byQuality by auto.
    unfold descending.
    pose proof (Hfinite a Ha). pose proof (Hfinite b Hb). pose proof (Hfinite c Hc).
    destruct (quality a) as [| | |qa], (quality b) as [| | |qb],
      (quality c) as [| | |qc]; try done. simpl.
    rewrite !Qle_bool_iff. lra.
Qed.

Lemma StronglySorted_impl_elem {A} (R R' : A → A → Prop) (l : list A) :
  (∀ a b, a ∈ l → b ∈ l → R a b → R' a b) →
  StronglySorted R l → StronglySorted R' l.
Proof.
  intros Himpl Hsorted. induction Hsorted as [|x l Hsorted IH Hx].
  - constructor.
  - constructor.
    + apply IH. intros a b Ha Hb. apply Himpl; by apply list_elem_of_further.
    + rewrite Forall_forall in Hx. apply Forall_forall. intros y Hy.
      apply Himpl; [apply list_elem_of_here|by apply list_elem_of_further|by apply Hx].
Qed.

Lemma filter_ext_elem {A} (f g : A → bool) (l : list A) :
  (∀ a, a ∈ l → f a = g a) → List.filter f l = List.filter g l.
Proof.
  intros Hfg. apply List.filter_ext_in. intros a Ha. by apply Hfg, list_elem_of_In.
Qed.

Section RequestedTagsClaims.
Context `{Collaborators}.

(** C3, as the code has it: when the quality of every component is a finite
    number, the sorted array is a rearrangement of the components in which
    no quality is followed by a greater one and the components of equal
    quality keep their order; [parse] throws when the primary language of a
    component is the name of an inherited property, and otherwise its
    result is made of the matches of the first sorted component, then those
    of the second, and so on, each group in the order of registration, and
    is the default alone when there is no match. *)
Theorem requested_tags_sorted_and_result_grouped `{!StableSort} :
  ∀ (s : string),
    (Forall (λ c, isFiniteNumber (quality c) = true) (requestedTags s) →
       parseAndSortLanguageTags s ≡ₚ requestedTags s
       ∧ StronglySorted descending (parseAndSortLanguageTags s)
       ∧ ∀ c, c ∈ requestedTags s →
           List.filter (sameQuality c) (parseAndSortLanguageTags s)
           = List.filter (sameQuality c) (requestedTags s))
    ∧ (∀ (tags : list string) (this0 this : AcceptLanguage),
         truthyString s = true →
         languages tags this0 = (Normal (), this) →
         parse (PlString s) this
         = (if existsb requestsInherited (requestedTags s) then Throw NotIterable
            else Normal
                   match mjoin (matchesAmong tags <$> parseAndSortLanguageTags s) with
                   | [] => [tags !! 0%nat]
                   | result => Some <$> result
                   end, this)).
Proof.
  intros s. split.
  2:{ intros tags this0 this Hs Hrun.
      by rewrite (parse_built _ _ _ _ Hrun Hs), requestsInherited_sorted. }
  intros Hfinite.
  pose proof (stable_permutation (requestedTags s) byQuality) as Hperm.
  pose proof (byQuality_consistent _ Hfinite) as Hcons.
  assert (∀ c, c ∈ parseAndSortLanguageTags s → isFiniteNumber (quality c) = true)
    as Hfinite'.
  { intros c Hc. unfold parseAndSortLanguageTags in Hc. rewrite Hperm in Hc.
    rewrite Forall_forall in Hfinite. by apply Hfinite. }
  split; [exact Hperm|]. split.
  - eapply StronglySorted_impl_elem; [|by apply stable_sorted].
    intros a b Ha Hb. by apply comesFirst_byQuality; apply Hfinite'.
  - intros c Hc.
    rewrite Forall_forall in Hfinite.
    rewrite <-(filter_ext_elem (tied byQuality c)).
    2:{ intros a Ha. apply tied_byQuality; [by apply Hfinite|by apply Hfinite']. }
    rewrite <-(filter_ext_elem (tied byQuality c) _ (requestedTags s)).
    2:{ intros a Ha. apply tied_byQuality; by apply Hfinite. }
    by apply stable_ties.
Qed.

Lemma split_without sep s : contains sep s = false → split sep s = [s].
Proof.
  induction s as [|c s IH]; simpl; [done|].
  intros [Hc Hs]%orb_false_iff. by rewrite Hc, IH.
Qed.

Lemma split_append sep a b :
  contains sep a = false →
  split sep (a +:+ String sep b) = a :: split sep b.
Proof.
  induction a as [|c a IH]; simpl.
  - intros _. by rewrite Ascii.eqb_refl.
  - intros [Hc Ha]%orb_false_iff. by rewrite Hc, IH.
Qed.

Lemma substring_all s : String.substring 0 (String.length s) s = s.
Proof. induction s as [|c s IH]; simpl; [done|]. by rewrite IH. Qed.

(** C4, as the code has it: the quality of a component is 1.0 when it has
    no first parameter or an empty one; otherwise it is the float value of
    what stands between the first [=] of that parameter and the next one (or
    the end), whatever the name of the parameter, and that of [undefined]
    when the parameter has no [=]; it is the float value of the [q=]
    parameter when this one comes first.  The components kept are those
    whose tag is not empty. *)
Theorem quality_of_component :
  ∀ (w : string),
    let components := split ";" (replaceFirstWhiteSpaceRun w) in
    (components !! 1%nat = None ∨ components !! 1%nat = Some "" →
       quality (weightedLanguageRange w) = Num 1)
    ∧ (∀ name rest,
         components !! 1%nat = Some (name +:+ String "=" rest) →
         contains "=" name = false →
         quality (weightedLanguageRange w) = parseFloat (split "=" rest !! 0%nat))
    ∧ (∀ name v,
         components !! 1%nat = Some (name +:+ String "=" v) →
         contains "=" name = false → contains "=" v = false →
         quality (weightedLanguageRange w) = parseFloat (Some v))
    ∧ (∀ parameter,
         components !! 1%nat = Some parameter → parameter ≠ "" →
         contains "=" parameter = false →
         quality (weightedLanguageRange w) = parseFloat None)
    ∧ (∀ v,
         components !! 1%nat = Some ("q=" +:+ v) → contains "=" v = false →
         quality (weightedLanguageRange w) = parseFloat (Some v)
         ∧ specifiedQuality w = parseFloat (Some v))
    ∧ (∀ s c,
         c ∈ requestedTags s ↔
         tag c ≠ "" ∧ ∃ w', w' ∈ split "," s ∧ c = weightedLanguageRange w').
Proof.
  intros w components.
  assert (∀ name rest,
    components !! 1%nat = Some (name +:+ String "=" rest) →
    contains "=" name = false →
    quality (weightedLanguageRange w) = parseFloat (split "=" rest !! 0%nat))
    as Hfirst.
  { intros name rest Hp Hname. unfold weightedLanguageRange.
    fold components. rewrite Hp.
    assert (truthyString (name +:+ String "=" rest) = true) as ->.
    { apply truthyString_true. by destruct name. }
    by rewrite split_append. }
  assert (∀ name v,
    components !! 1%nat = Some (name +:+ String "=" v) →
    contains "=" name = false → contains "=" v = false →
    quality (weightedLanguageRange w) = parseFloat (Some v)) as Hnamed.
  { intros name v Hp Hname Hv.
    rewrite (Hfirst name v Hp Hname). by rewrite split_without. }
  split; [|split; [exact Hfirst|split; [exact Hnamed|split; [|split]]]].
  - unfold weightedLanguageRange. fold components. by intros [-> | ->].
  - intros parameter Hp Hne Hno. unfold weightedLanguageRange.
    fold components. rewrite Hp.
    apply truthyString_true in Hne. rewrite Hne. by rewrite split_without.
  - intros v Hp Hv. split; [by apply (Hnamed "q" v)|].
    unfold specifiedQuality. fold components.
    destruct components as [|c0 [|p rest]]; try done.
    injection Hp as ->. unfold qParameter. cbn [tail List.filter].
    change (String.prefix "q=" ("q=" +:+ v)) with (String.prefix "" v).
    assert (String.prefix "" v = true) as -> by (by destruct v).
    change (String.substring 2 (String.length ("q=" +:+ v) - 2) ("q=" +:+ v))
      with (String.substring 0 (String.length v - 0) v).
    by rewrite Nat.sub_0_r, substring_all.
  - intros s c. unfold requestedTags.
    rewrite list_elem_of_In, filter_In, <-list_elem_of_In, truthyString_true.
    rewrite list_elem_of_fmap.
    split; [intros [(w' & Hc & Hw') Hne]|intros [Hne (w' & Hw' & Hc)]]; eauto.
Qed.

End RequestedTagsClaims.

(** * Further properties of the code *)

(** ** The loop labelled [middle], read as a relation between tags *)

Lemma stringsAgree_prefix defined requested :
  stringsAgree defined requested = true ↔ defined `prefix_of` requested.
Proof.
  unfold stringsAgree. rewrite forIndices_true. split.
  - revert requested. induction defined as [|x defined IH]; intros requested Hall.
    + apply prefix_nil.
    + pose proof (Hall 0%nat ltac:(simpl; lia)) as H0.
      apply bool_decide_eq_true in H0. simpl in H0.
      destruct requested as [|y requested]; [done|]. injection H0 as <-.
      apply prefix_cons, IH. intros i Hi.
      exact (Hall (S i) ltac:(simpl; lia)).
  - intros [k ->] i Hi. apply bool_decide_eq_true.
    by rewrite lookup_app_l.
Qed.

Lemma extensionsAgree_covered defined requested :
  extensionsAgree defined requested = true ↔ extensionsCovered defined requested.
Proof.
  unfold extensionsAgree, extensionsCovered. rewrite forIndices_true. split.
  - intros Hall i e He.
    pose proof (Hall i (lookup_lt_Some _ _ _ He)) as Hi. rewrite He in Hi.
    destruct (ext_extension e) as [|x extensions] eqn:Hext; [by left|right].
    rewrite forIndices_true in Hi.
    pose proof (Hi 0%nat ltac:(simpl; lia)) as H0.
    destruct (requested !! i) as [e'|]; [|done].
    exists e'. split; [done|]. apply stringsAgree_prefix.
    unfold stringsAgree. apply forIndices_true. exact Hi.
  - intros Hcov i Hi.
    destruct (defined !! i) as [e|] eqn:He; [|done].
    apply forIndices_true. intros ei Hei.
    destruct (Hcov i e He) as [Hnil|(e' & -> & Hpre)].
    + rewrite Hnil in Hei. simpl in Hei. lia.
    + apply stringsAgree_prefix in Hpre. unfold stringsAgree in Hpre.
      rewrite forIndices_true in Hpre. by apply Hpre.
Qed.

Lemma checkProperty_string d r :
  (if negb (truthy d) then true
   else if negb (truthy r) then false else bool_decide (d = r)) = true
  ↔ stringCovered d r.
Proof.
  unfold stringCovered. destruct (truthy d) eqn:Hd; simpl.
  - destruct (truthy r) eqn:Hr; simpl.
    + rewrite bool_decide_eq_true. naive_solver.
    + split; [done|]. intros Heq. rewrite Heq in Hr; [congruence|done].
  - naive_solver.
Qed.

Lemma covers_reachesPush d r : covers d r ↔ reachesPush d r = true.
Proof.
  unfold reachesPush, covers, properties. cbn [forallb].
  rewrite !andb_true_iff. unfold checkProperty. cbn [getProperty truthyValue negb].
  rewrite !stringsAgree_prefix, extensionsAgree_covered, !checkProperty_string.
  tauto.
Qed.

(** The loop reaches [result.push] exactly when the private use subtags and
    the variants of the registered tag begin those of the requested tag, the
    subtags of each of its extension records begin those of the requested
    record at the same position, and its region and its script, when it has
    them, are those of the requested tag. *)
Theorem reachesPush_covers :
  ∀ (definedLangTag requestedLangTag : LanguageTag),
    reachesPush definedLangTag requestedLangTag = true
    ↔ covers definedLangTag requestedLangTag.
Proof.
  intros d r. unfold reachesPush, covers, properties. cbn [forallb].
  rewrite !andb_true_iff. unfold checkProperty. cbn [getProperty truthyValue negb].
  rewrite !stringsAgree_prefix, extensionsAgree_covered, !checkProperty_string.
  tauto.
Qed.

Lemma extensionsCovered_subtags defined requested :
  extensionsCovered defined requested
  ↔ ∀ i x, (ext_extension <$> defined) !! i = Some x →
      x = [] ∨ ∃ y, (ext_extension <$> requested) !! i = Some y ∧ x `prefix_of` y.
Proof.
  unfold extensionsCovered. split.
  - intros Hcov i x Hx. rewrite list_lookup_fmap in Hx.
    destruct (defined !! i) as [e|] eqn:He; [|done]. injection Hx as <-.
    destruct (Hcov i e He) as [?|(e' & He' & Hpre)]; [by left|right].
    exists (ext_extension e'). by rewrite list_lookup_fmap, He'.
  - intros Hcov i e He.
    destruct (Hcov i (ext_extension e)) as [?|(y & Hy & Hpre)]; [|by left|right].
    { by rewrite list_lookup_fmap, He. }
    rewrite list_lookup_fmap in Hy.
    destruct (requested !! i) as [e'|]; [|done]. injection Hy as <-. eauto.
Qed.

Lemma covers_refl d : covers d d.
Proof.
  unfold covers, stringCovered. repeat split; try done.
  intros i e He. right. by exists e.
Qed.

Lemma covers_trans a b c : covers a b → covers b c → covers a c.
Proof.
  unfold covers, stringCovered.
  intros (Hp1 & He1 & Hv1 & Hr1 & Hs1) (Hp2 & He2 & Hv2 & Hr2 & Hs2).
  split; [by etrans|]. split; [|split; [by etrans|]].
  - intros i e He.
    destruct (He1 i e He) as [?|(e' & He' & Hpre)]; [by left|].
    destruct (He2 i e' He') as [Hnil|(e'' & He'' & Hpre')].
    + left. rewrite Hnil in Hpre. by apply prefix_nil_inv.
    + right. exists e''. split; [done|by etrans].
  - split.
    + intros Ha. rewrite <-(Hr1 Ha). apply Hr2. by rewrite (Hr1 Ha).
    + intros Ha. rewrite <-(Hs1 Ha). apply Hs2. by rewrite (Hs1 Ha).
Qed.

(** A registered tag matches the request that is spelled like it; and when
    it matches a request, it matches every request that this request,
    taken as a registered tag, would match. *)
Theorem reachesPush_preorder :
  (∀ (t : LanguageTag), reachesPush t t = true)
  ∧ (∀ (a b c : LanguageTag),
       reachesPush a b = true → reachesPush b c = true → reachesPush a c = true).
Proof.
  split.
  - intros t. apply covers_reachesPush, covers_refl.
  - intros a b c. rewrite <-!covers_reachesPush. apply covers_trans.
Qed.

(** The loop reads the script, the region, the variants, the private use
    subtags and the subtags of the extension records, and nothing else:
    tags that agree on these are matched alike, whatever their primary
    language, their extended language subtags and the singletons of their
    extensions. *)
Theorem reachesPush_reads_only :
  ∀ (d d' r r' : LanguageTag),
    sameMatchedFields d d' → sameMatchedFields r r' →
    reachesPush d r = reachesPush d' r'.
Proof.
  intros d d' r r' (Hs & Hr & Hv & Hp & He) (Hs' & Hr' & Hv' & Hp' & He').
  apply eq_iff_eq_true. rewrite <-!covers_reachesPush. unfold covers.
  rewrite !extensionsCovered_subtags. by rewrite Hs, Hr, Hv, Hp, He, Hs', Hr', Hv', Hp', He'.
Qed.

(** ** The registry over its whole life *)

Section RegistryLife.
Context `{Collaborators}.

Lemma supportedTag_Some s key d :
  supportedTag s = Some (key, d) →
  bcp47_parse s = Some (langtag d)
  ∧ lang_language (language (langtag d)) = Some key
  ∧ key ≠ "" ∧ value d = s.
Proof.
  unfold supportedTag.
  destruct (bcp47_parse s) as [t|]; [|done].
  destruct (lang_language (language t)) as [k|] eqn:Hk; [|done].
  destruct (truthyString k) eqn:Htruthy; [|done].
  intros [= <- <-]. by apply truthyString_true in Htruthy.
Qed.

Lemma extendBucket_None_Some l bucket :
  extendBucket None l = Some bucket → bucket = l ∧ l ≠ [].
Proof. destruct l; [done|]. by intros [= <-]. Qed.

Lemma bucketOf_well_formed key tags bucket :
  extendBucket None (bucketOf key tags) = Some bucket →
  bucket ≠ [] ∧ key ≠ ""
  ∧ ∀ d, d ∈ bucket →
      bcp47_parse (value d) = Some (langtag d)
      ∧ lang_language (language (langtag d)) = Some key.
Proof.
  intros [-> Hne]%extendBucket_None_Some.
  assert (∀ d, d ∈ bucketOf key tags →
            bcp47_parse (value d) = Some (langtag d)
            ∧ lang_language (language (langtag d)) = Some key ∧ key ≠ "") as Hall.
  { intros d [_ Hd]%bucketOf_elem. apply supportedTag_Some in Hd. tauto. }
  split; [done|]. split.
  - destruct (bucketOf key tags) as [|d bucket] eqn:Hb; [done|].
    apply (Hall d). apply list_elem_of_here.
  - intros d Hd. destruct (Hall d Hd) as (? & ? & _). done.
Qed.

(** The registry is well formed on a new instance and stays so through
    every call of [languages], whether the call returns or throws. *)
Theorem languages_keeps_registry_well_formed :
  wellFormedRegistry newAcceptLanguage
  ∧ ∀ (tags : list string) (this : AcceptLanguage),
      wellFormedRegistry this → wellFormedRegistry (snd (languages tags this)).
Proof.
  split.
  - intros key bucket Hkey. simpl in Hkey. by rewrite lookup_empty in Hkey.
  - intros tags this Hwf.
    pose proof (languages_outcome tags this) as Hout.
    destruct tags as [|first tags]; [by rewrite Hout|].
    destruct Hout as (m & Hm & ->).
    intros key bucket Hkey.
    apply (bucketOf_well_formed key (acceptedPrefix (first :: tags))).
    rewrite <-Hm. by destruct (firstRejection (first :: tags)).
Qed.

Lemma firstRejection_None_elem tags t :
  firstRejection tags = None → t ∈ tags → rejection t = None.
Proof.
  induction tags as [|s tags IH]; simpl; [by intros _ ?%elem_of_nil|].
  destruct (rejection s) eqn:Hs; [done|].
  intros Hrest [->|Ht]%elem_of_cons; [done|by apply IH].
Qed.

Lemma languages_Normal_accepts tags this this' t :
  languages tags this = (Normal (), this') → t ∈ tags → rejection t = None.
Proof.
  intros Hrun Ht. pose proof (languages_fst tags this) as Hfst.
  rewrite Hrun in Hfst. cbn [fst] in Hfst.
  destruct tags as [|first tags]; [done|].
  destruct (firstRejection (first :: tags)) eqn:Hfirst; [done|].
  by eapply firstRejection_None_elem.
Qed.

(** After a call of [languages(tags)] that returns, every tag of the list
    is found in the bucket of its primary language, as the entry made of the
    parsed tag and of the string; and every entry of every bucket comes from
    a tag of the list. *)
Theorem registered_tags_round_trip :
  ∀ (tags : list string) (this0 this : AcceptLanguage),
    languages tags this0 = (Normal (), this) →
    (∀ t, t ∈ tags →
       ∃ languageTag key bucket,
         bcp47_parse t = Some languageTag
         ∧ lang_language (language languageTag) = Some key
         ∧ languageTagsWithValues this !! key = Some bucket
         ∧ {| langtag := languageTag; value := t |} ∈ bucket)
    ∧ (∀ key bucket d,
         languageTagsWithValues this !! key = Some bucket → d ∈ bucket →
         value d ∈ tags).
Proof.
  intros tags this0 this Hrun.
  destruct (languages_returned_fields _ _ _ Hrun) as [Hm _]. split.
  - intros t Ht.
    pose proof (languages_Normal_accepts _ _ _ _ Hrun Ht) as Hacc.
    apply rejection_None in Hacc as (key & d & Hsup & _).
    destruct (supportedTag_Some _ _ _ Hsup) as (Hparse & Hlang & _ & Hvalue).
    assert (d ∈ bucketOf key tags) as Hd.
    { apply bucketOf_elem. by rewrite Hvalue. }
    exists (langtag d), key, (bucketOf key tags).
    split; [done|]. split; [done|]. split.
    + rewrite Hm. destruct (bucketOf key tags); [by apply elem_of_nil in Hd|done].
    + destruct d as [lt v]. simpl in *. by subst.
  - intros key bucket d Hkey Hd. rewrite Hm in Hkey.
    apply extendBucket_None_Some in Hkey as [-> _].
    by apply bucketOf_elem in Hd as [? _].
Qed.

Lemma acceptedPrefix_middle front s back e :
  Forall accepted front → rejection s = Some e →
  acceptedPrefix (front ++ s :: back) = front.
Proof.
  induction 1 as [|s' front Hs' _ IH]; simpl; intros Hs.
  - by rewrite Hs.
  - apply accepted_rejection in Hs'. rewrite Hs'. by rewrite IH.
Qed.

(** A tag whose primary language is the name of a property that plain
    objects inherit, standing after tags that are accepted, makes
    [languages] throw the [TypeError] of the missing [push]; the default
    stays what it was and the registry is left with the buckets of the tags
    in front. *)
Theorem languages_throws_for_inherited_language :
  ∀ (this : AcceptLanguage) (front back : list string) (s : string)
    (languageTag : LanguageTag),
    Forall accepted front →
    bcp47_parse s = Some languageTag →
    truthy (lang_language (language languageTag)) = true →
    propertyKey (lang_language (language languageTag)) ∈ inheritedKeys →
    let this' := snd (languages (front ++ s :: back) this) in
    fst (languages (front ++ s :: back) this) = Throw PushIsNotAFunction
    ∧ defaultLanguageTag this' = defaultLanguageTag this
    ∧ ∀ key, languageTagsWithValues this' !! key
             = extendBucket None (bucketOf key front).
Proof.
  intros this front back s languageTag Hfront Hs Hlang Hkey this'.
  assert (rejection s = Some PushIsNotAFunction) as Hrejected.
  { unfold rejection. rewrite Hs, Hlang. by rewrite bool_decide_eq_true_2. }
  pose proof (languages_outcome (front ++ s :: back) this) as Hout.
  rewrite (firstRejection_middle _ _ _ _ Hfront Hrejected) in Hout.
  rewrite (acceptedPrefix_middle _ _ _ _ Hfront Hrejected) in Hout.
  destruct (front ++ s :: back) as [|first tags] eqn:Htags.
  { by destruct front. }
  destruct Hout as (m & Hm & Hout). subst this'. by rewrite Hout.
Qed.

Lemma matchesAmong_elem tags c v : v ∈ matchesAmong tags c → v ∈ tags.
Proof.
  unfold matchesAmong.
  destruct (bcp47_parse (tag c)) as [r|]; [|by intros ?%elem_of_nil].
  intros (d & -> & Hd)%list_elem_of_fmap.
  apply list_elem_of_In, filter_In in Hd as [Hd _].
  apply list_elem_of_In, bucketOf_elem in Hd. tauto.
Qed.

(** After a call of [languages(tags)] that returns, [parse] and [get] only
    ever answer with strings of [tags], whatever the argument: every element
    of a result of [parse] is one, and [get] either throws the [TypeError]
    of the loop or returns one. *)
Theorem answers_are_registered_tags :
  ∀ (tags : list string) (this0 this : AcceptLanguage) (pl : PriorityList),
    languages tags this0 = (Normal (), this) →
    (∀ l x, fst (parse pl this) = Normal l → x ∈ l → ∃ t, x = Some t ∧ t ∈ tags)
    ∧ (fst (get pl this) = Throw NotIterable
       ∨ ∃ t, fst (get pl this) = Normal (Some (Some t)) ∧ t ∈ tags).
Proof.
  intros tags this0 this pl Hrun.
  assert (∀ l x, fst (parse pl this) = Normal l → x ∈ l →
            ∃ t, x = Some t ∧ t ∈ tags) as Hall.
  { intros l x Hl Hx. rewrite parse_outcome in Hl. cbn [fst] in Hl.
    destruct (languages_returned_fields _ _ _ Hrun) as [_ Hdefault].
    assert (∃ first, tags !! 0%nat = Some first) as [first Hfirst].
    { destruct tags as [|first tags]; [|by eexists].
      unfold languages in Hrun. simpl in Hrun. discriminate Hrun. }
    assert (x ∈ [defaultLanguageTag this] → ∃ t, x = Some t ∧ t ∈ tags) as Hdef.
    { intros ->%list_elem_of_singleton. exists first. rewrite Hdefault.
      split; [done|]. by eapply list_elem_of_lookup_2. }
    destruct pl as [| |s]; [injection Hl as <-; by apply Hdef..|].
    destruct (truthyString s); [|injection Hl as <-; by apply Hdef].
    destruct (existsb (throwsAt this) (parseAndSortLanguageTags s)); [done|].
    injection Hl as <-.
    destruct (matched this s) as [|v result] eqn:Hmatched; [by apply Hdef|].
    change (x ∈ Some <$> (v :: result)) in Hx.
    apply list_elem_of_fmap in Hx as (t & -> & Ht). exists t. split; [done|].
    rewrite <-Hmatched, matched_concat, fmap_mjoin_matches in Ht.
    apply list_elem_of_join in Ht as (group & Ht & Hgroup).
    apply list_elem_of_fmap in Hgroup as (c & -> & _).
    rewrite (matchesFor_built _ _ _ _ Hrun) in Ht.
    by eapply matchesAmong_elem. }
  split; [exact Hall|].
  rewrite get_of_parse. cbn [fst].
  destruct (fst (parse pl this)) as [l|e] eqn:Hp.
  - right. destruct (parse_Normal_not_nil _ _ _ Hp) as (first & rest & ->).
    destruct (Hall (first :: rest) first) as (t & -> & Ht);
      [done|apply list_elem_of_here|].
    by exists t.
  - left. by rewrite (parse_throws _ _ _ Hp).
Qed.

(** While the registry is empty, as on a new instance, [parse] and [get]
    throw for a priority list with a component whose primary language is the
    name of an inherited property; for every other argument [parse] answers
    with the default alone and [get] with the default; on a new instance
    that is [null]. *)
Theorem empty_registry_gives_default `{!StableSort} :
  ∀ (this : AcceptLanguage) (pl : PriorityList),
    languageTagsWithValues this = ∅ →
    parse pl this
    = (if requestsInheritedLanguage pl then Throw NotIterable
       else Normal [defaultLanguageTag this], this)
    ∧ get pl this
      = (if requestsInheritedLanguage pl then Throw NotIterable
         else Normal (Some (defaultLanguageTag this)), this).
Proof.
  intros this pl Hempty.
  assert (parse pl this
          = (if requestsInheritedLanguage pl then Throw NotIterable
             else Normal [defaultLanguageTag this], this)) as Hp.
  { rewrite parse_outcome. destruct pl as [| |s]; try done.
    unfold requestsInheritedLanguage.
    destruct (truthyString s); [|done]. cbn [andb].
    rewrite <-requestsInherited_sorted.
    rewrite (existsb_ext_in (throwsAt this) requestsInherited).
    2:{ intros c _. apply throwsAt_requestsInherited.
        intros key _. by rewrite Hempty, lookup_empty. }
    destruct (existsb requestsInherited (parseAndSortLanguageTags s)); [done|].
    assert (matched this s = []) as ->; [|done].
    rewrite matched_concat, mjoin_nil; [done|].
    intros c _. unfold matchesFor. destruct (bcp47_parse (tag c)); [|done].
    by rewrite Hempty, lookup_empty. }
  split; [exact Hp|]. rewrite get_of_parse, Hp. cbn [fst].
  by destruct (requestsInheritedLanguage pl).
Qed.

End RegistryLife.

(** ** Reading a priority list back *)

Lemma append_empty_r s : s +:+ "" = s.
Proof.
  induction s as [|c s IH]; [done|].
  change (String c (s +:+ "") = String c s). by rewrite IH.
Qed.

Lemma allChars_append p a b :
  allChars p (a +:+ b) = allChars p a && allChars p b.
Proof. induction a as [|c a IH]; simpl; [done|]. by rewrite IH, andb_assoc. Qed.

Lemma allChars_impl (p q : ascii → bool) s :
  (∀ c, p c = true → q c = true) → allChars p s = true → allChars q s = true.
Proof.
  intros Hpq. induction s as [|c s IH]; simpl; [done|].
  intros [Hc Hs]%andb_true_iff. by rewrite (Hpq c Hc), IH.
Qed.

Lemma contains_allChars c s :
  contains c s = false ↔ allChars (λ x, negb (Ascii.eqb x c)) s = true.
Proof.
  induction s as [|x s IH]; simpl; [done|].
  rewrite orb_false_iff, andb_true_iff, IH, negb_true_iff. done.
Qed.

Lemma contains_append c a b :
  contains c (a +:+ b) = contains c a || contains c b.
Proof. induction a as [|x a IH]; simpl; [done|]. by rewrite IH, orb_assoc. Qed.

Lemma plainText_no_comma s : plainText s = true → contains "," s = false.
Proof.
  intros Hs. apply contains_allChars. revert Hs. apply allChars_impl.
  intros c. rewrite !negb_true_iff, !orb_false_iff. tauto.
Qed.

Lemma plainText_no_semicolon s : plainText s = true → contains ";" s = false.
Proof.
  intros Hs. apply contains_allChars. revert Hs. apply allChars_impl.
  intros c. rewrite !negb_true_iff, !orb_false_iff. tauto.
Qed.

Lemma plainText_no_white_space s :
  plainText s = true → allChars (λ c, negb (isWhiteSpace c)) s = true.
Proof.
  apply allChars_impl.
  intros c. rewrite !negb_true_iff, !orb_false_iff. tauto.
Qed.

Lemma white_space_no_comma s :
  allChars isWhiteSpace s = true → contains "," s = false.
Proof.
  intros Hs. apply contains_allChars. revert Hs. apply allChars_impl.
  intros c Hc. apply negb_true_iff. destruct (Ascii.eqb_spec c ","); [by subst|done].
Qed.

Lemma replaceFirstWhiteSpaceRun_none s :
  allChars (λ c, negb (isWhiteSpace c)) s = true →
  replaceFirstWhiteSpaceRun s = s.
Proof.
  induction s as [|c s IH]; simpl; [done|].
  intros [Hc Hs]%andb_true_iff. apply negb_true_iff in Hc. by rewrite Hc, IH.
Qed.

Lemma dropWhiteSpace_lead lead body :
  allChars isWhiteSpace lead = true →
  allChars (λ c, negb (isWhiteSpace c)) body = true →
  dropWhiteSpace (lead +:+ body) = body.
Proof.
  intros Hlead Hbody. induction lead as [|c lead IH]; simpl.
  - destruct body as [|c body]; [done|]. simpl in *.
    apply andb_true_iff in Hbody as [Hc _]. apply negb_true_iff in Hc.
    by rewrite Hc.
  - simpl in Hlead. apply andb_true_iff in Hlead as [Hc Hlead].
    rewrite Hc. by apply IH.
Qed.

Lemma replaceFirstWhiteSpaceRun_lead lead body :
  allChars isWhiteSpace lead = true →
  allChars (λ c, negb (isWhiteSpace c)) body = true →
  replaceFirstWhiteSpaceRun (lead +:+ body) = body.
Proof.
  intros Hlead Hbody. destruct lead as [|c lead].
  - by apply replaceFirstWhiteSpaceRun_none.
  - simpl in *. apply andb_true_iff in Hlead as [Hc Hlead]. rewrite Hc.
    by apply dropWhiteSpace_lead.
Qed.

Section ReadingBack.
Context `{Collaborators}.

Lemma weightedLanguageRange_renderItem item :
  wellFormedItem item →
  weightedLanguageRange (renderItem item) = requestedItem item.
Proof.
  intros (Hlead & Hne & Hrange & Hweight).
  unfold weightedLanguageRange, renderItem, requestedItem.
  pose proof (plainText_no_white_space _ Hrange) as Hrange_ws.
  pose proof (plainText_no_semicolon _ Hrange) as Hrange_semi.
  destruct (weight item) as [v|].
  - destruct Hweight as [Hv Hv_eq].
    pose proof (plainText_no_white_space _ Hv) as Hv_ws.
    pose proof (plainText_no_semicolon _ Hv) as Hv_semi.
    rewrite replaceFirstWhiteSpaceRun_lead; [|done|].
    2:{ by rewrite !allChars_append, Hrange_ws, Hv_ws. }
    change (range item +:+ ";q=" +:+ v)
      with (range item +:+ String ";" ("q=" +:+ v)).
    rewrite split_append by done.
    rewrite (split_without ";" ("q=" +:+ v))
      by (by rewrite contains_append, Hv_semi).
    cbn [lookup list_lookup default from_option].
    change (truthyString ("q=" +:+ v)) with true. cbn iota.
    change ("q=" +:+ v) with ("q" +:+ String "=" v).
    rewrite split_append by done. by rewrite split_without.
  - rewrite replaceFirstWhiteSpaceRun_lead; [|done|].
    2:{ by rewrite allChars_append, Hrange_ws. }
    rewrite append_empty_r. by rewrite split_without.
Qed.

Lemma renderItem_no_comma item :
  wellFormedItem item → contains "," (renderItem item) = false.
Proof.
  intros (Hlead & Hne & Hrange & Hweight). unfold renderItem.
  rewrite !contains_append, (white_space_no_comma _ Hlead),
    (plainText_no_comma _ Hrange).
  destruct (weight item) as [v|]; [|done].
  destruct Hweight as [Hv _].
  by rewrite contains_append, (plainText_no_comma _ Hv).
Qed.

Lemma requestedItem_truthy item :
  wellFormedItem item → truthyString (tag (requestedItem item)) = true.
Proof. intros (_ & Hne & _). by apply truthyString_true. Qed.

(** A priority list written as components separated by commas, each made of
    optional white space, a language range and optionally [;q=] and a
    weight, is read back component by component: the tag is the range and
    the quality is the float value of the weight, or 1.0 without weight. *)
Theorem rendered_header_is_read_back :
  ∀ (items : list HeaderItem),
    Forall wellFormedItem items →
    requestedTags (renderHeader items) = requestedItem <$> items.
Proof.
  intros items Hwf. unfold requestedTags.
  induction Hwf as [|item items Hitem Hitems IH]; [done|].
  destruct items as [|item' items].
  - cbn [renderHeader]. rewrite split_without by by apply renderItem_no_comma.
    cbn [map List.filter].
    rewrite weightedLanguageRange_renderItem by done.
    by rewrite requestedItem_truthy.
  - cbn [renderHeader]. rewrite split_append by by apply renderItem_no_comma.
    cbn [map List.filter].
    rewrite weightedLanguageRange_renderItem by done.
    rewrite requestedItem_truthy by done.
    cbn [fmap list_fmap]. f_equal. exact IH.
Qed.

Context `{!StableSort}.

(** After a call of [languages(tags)] that returns, asking for one of the
    tags by its very string finds it: the string is in the result of
    [parse].  The string is taken free of white space, comma and
    semicolon. *)
Theorem registered_tag_requested_verbatim :
  ∀ (tags : list string) (this0 this : AcceptLanguage) (t : string),
    languages tags this0 = (Normal (), this) →
    t ∈ tags → t ≠ "" → plainText t = true →
    ∃ l, parse (PlString t) this = (Normal l, this) ∧ Some t ∈ l.
Proof.
  intros tags this0 this t Hrun Ht Hne Hplain.
  assert (requestedTags t
          = [requestedItem {| lead := ""; range := t; weight := None |}])
    as Hread.
  { assert (weightedLanguageRange t
            = requestedItem {| lead := ""; range := t; weight := None |}) as Hw.
    { rewrite <-weightedLanguageRange_renderItem by (by repeat split).
      unfold renderItem. cbn [lead range weight].
      change ("" +:+ t +:+ "") with (t +:+ ""). by rewrite append_empty_r. }
    unfold requestedTags.
    rewrite split_without by by apply plainText_no_comma.
    cbn [map List.filter]. rewrite Hw.
    cbn [requestedItem tag range]. by apply truthyString_true in Hne as ->. }
  rewrite (parse_built _ _ _ _ Hrun) by by apply truthyString_true.
  rewrite (sorted_singleton t _ Hread).
  pose proof (languages_Normal_accepts _ _ _ _ Hrun Ht) as Hacc.
  apply rejection_None in Hacc as (key & d & Hsup & Hkey).
  destruct (supportedTag_Some _ _ _ Hsup) as (Hparse & Hlang & _ & Hvalue).
  assert (existsb requestsInherited
            [requestedItem {| lead := ""; range := t; weight := None |}] = false)
    as ->.
  { cbn [existsb]. unfold requestsInherited. cbn [requestedItem tag range].
    rewrite Hparse, Hlang. cbn [propertyKey]. by rewrite bool_decide_eq_false_2. }
  eexists. split; [reflexivity|].
  cbn [fmap list_fmap mjoin list_join]. rewrite app_nil_r.
  assert (t ∈ matchesAmong tags (requestedItem {| lead := ""; range := t; weight := None |}))
    as Hmatch.
  { unfold matchesAmong. cbn [requestedItem tag range]. rewrite Hparse, Hlang.
    cbn [propertyKey]. apply list_elem_of_fmap. exists d. split; [done|].
    apply list_elem_of_In, filter_In. split.
    - apply list_elem_of_In, bucketOf_elem. by rewrite Hvalue.
    - apply covers_reachesPush, covers_refl. }
  destruct (matchesAmong tags _) as [|v result]; [by apply elem_of_nil in Hmatch|].
  change (Some t ∈ Some <$> (v :: result)). by apply list_elem_of_fmap_2.
Qed.

End ReadingBack.

(** ** What the negotiation answers *)

Lemma first_group {A} (f : A → list LanguageTagWithValue) (l : list A) v rest :
  value <$> mjoin (f <$> l) = v :: rest →
  ∃ l1 c l2 more,
    l = l1 ++ c :: l2 ∧ Forall (λ x, f x = []) l1 ∧ value <$> f c = v :: more.
Proof.
  induction l as [|c l IH]; [done|].
  cbn [fmap list_fmap mjoin list_join]. rewrite fmap_app.
  destruct (f c) as [|d ds] eqn:Hc.
  - intros (l1 & c' & l2 & more & -> & Hl1 & Hc')%IH.
    exists (c :: l1), c', l2, more. split; [done|]. split; [|done].
    by constructor.
  - intros [= <- _]. exists [], c, l, (value <$> ds). rewrite Hc. by repeat split.
Qed.

Lemma jsGe_refl_finite x : isFiniteNumber x = true → jsGe x x = true.
Proof. destruct x; try done. intros _. simpl. apply Qle_bool_iff. lra. Qed.

Section Answers.
Context `{Collaborators} `{!StableSort}.

Lemma sorted_descending s :
  Forall (λ c, isFiniteNumber (quality c) = true) (requestedTags s) →
  StronglySorted descending (parseAndSortLanguageTags s).
Proof.
  intros Hfinite.
  eapply StronglySorted_impl_elem;
    [|by apply stable_sorted, byQuality_consistent].
  rewrite Forall_forall in Hfinite.
  intros a b Ha Hb. apply comesFirst_byQuality; by apply Hfinite, elem_of_sorted.
Qed.

(** With finite qualities, when [parse] returns and some requested tag has
    a match, [get] answers with the first match of a requested tag such
    that no requested tag of greater quality has any match. *)
Theorem get_prefers_greater_quality :
  ∀ (this : AcceptLanguage) (s v : string) (rest : list string)
    (l : list (option string)),
    truthyString s = true →
    Forall (λ c, isFiniteNumber (quality c) = true) (requestedTags s) →
    fst (parse (PlString s) this) = Normal l →
    matched this s = v :: rest →
    l = Some <$> (v :: rest)
    ∧ get (PlString s) this = (Normal (Some (Some v)), this)
    ∧ ∃ c more,
        c ∈ requestedTags s
        ∧ value <$> matchesFor this c = v :: more
        ∧ ∀ c', c' ∈ requestedTags s →
            jsGe (quality c) (quality c') = false → matchesFor this c' = [].
Proof.
  intros this s v rest l Hs Hfinite Hl Hmatched.
  assert (l = Some <$> (v :: rest)) as ->.
  { rewrite parse_outcome, Hs, Hmatched in Hl. cbn [fst] in Hl.
    destruct (existsb _ _); [done|]. by injection Hl as <-. }
  split; [done|]. split.
  { rewrite get_of_parse, Hl. done. }
  pose proof (sorted_descending s Hfinite) as Hsorted.
  rewrite matched_concat in Hmatched.
  apply first_group in Hmatched as (l1 & c & l2 & more & Hsplit & Hl1 & Hc).
  exists c, more.
  assert (c ∈ requestedTags s) as Hin.
  { apply elem_of_sorted. rewrite Hsplit. apply elem_of_app. right.
    apply list_elem_of_here. }
  split; [done|]. split; [done|].
  intros c' Hc' Hless. apply elem_of_sorted in Hc'. rewrite Hsplit in Hc', Hsorted.
  apply elem_of_app in Hc' as [Hc'|Hc'].
  - rewrite Forall_forall in Hl1. by apply Hl1.
  - exfalso. apply StronglySorted_app_1_r, StronglySorted_cons in Hsorted as [Hafter _].
    apply elem_of_cons in Hc' as [->|Hc'].
    + rewrite Forall_forall in Hfinite.
      rewrite jsGe_refl_finite in Hless; [done|by apply Hfinite].
    + rewrite Forall_forall in Hafter. specialize (Hafter c' Hc').
      unfold descending in Hafter. congruence.
Qed.

(** In a registry built by [languages(tags)], the strings that the outer
    loop pushes to [result] are exactly the registered tags that some
    requested tag selects: the requested tag parses, the registered tag has
    its primary language, and the loop [middle] accepts the pair; and when
    [parse] returns, it returns these strings, or the default alone when
    there is none. *)
Theorem matched_exactly_the_selected_tags :
  ∀ (tags : list string) (this0 this : AcceptLanguage) (s v : string),
    languages tags this0 = (Normal (), this) →
    (v ∈ matched this s
     ↔ v ∈ tags
       ∧ ∃ c r d,
           c ∈ requestedTags s
           ∧ bcp47_parse (tag c) = Some r
           ∧ bcp47_parse v = Some d
           ∧ lang_language (language d)
             = Some (propertyKey (lang_language (language r)))
           ∧ covers d r)
    ∧ (∀ l, truthyString s = true →
         fst (parse (PlString s) this) = Normal l →
         l = match matched this s with
             | [] => [tags !! 0%nat]
             | result => Some <$> result
             end).
Proof.
  intros tags this0 this s v Hrun. split.
  2:{ intros l Hs Hl. rewrite parse_outcome, Hs in Hl. cbn [fst] in Hl.
      destruct (existsb _ _); [done|]. injection Hl as <-.
      by destruct (languages_returned_fields _ _ _ Hrun) as (_ & ->). }
  rewrite matched_concat, fmap_mjoin_matches, list_elem_of_join. split.
  - intros (group & Hv & Hgroup).
    apply list_elem_of_fmap in Hgroup as (c & -> & Hc).
    apply elem_of_sorted in Hc.
    rewrite (matchesFor_built _ _ _ _ Hrun) in Hv.
    split; [by eapply matchesAmong_elem|].
    unfold matchesAmong in Hv.
    destruct (bcp47_parse (tag c)) as [r|] eqn:Hr; [|by apply elem_of_nil in Hv].
    apply list_elem_of_fmap in Hv as (e & -> & He).
    apply list_elem_of_In, filter_In in He as [He Hreach].
    apply list_elem_of_In, bucketOf_elem in He as [_ He].
    destruct (supportedTag_Some _ _ _ He) as (Hparse & Hlang & _).
    exists c, r, (langtag e). by rewrite covers_reachesPush.
  - intros (Hv & c & r & d & Hc & Hr & Hd & Hlang & Hcov).
    exists (value <$> matchesFor this c). split.
    + rewrite (matchesFor_built _ _ _ _ Hrun). unfold matchesAmong. rewrite Hr.
      apply list_elem_of_fmap. exists {| langtag := d; value := v |}.
      split; [done|]. apply list_elem_of_In, filter_In. split.
      * apply list_elem_of_In, bucketOf_elem. split; [done|].
        cbn [value]. unfold supportedTag. rewrite Hd, Hlang.
        pose proof (languages_Normal_accepts _ _ _ _ Hrun Hv) as Hacc.
        unfold rejection in Hacc. rewrite Hd, Hlang in Hacc.
        cbn [truthy] in Hacc. by destruct (truthyString _).
      * by apply covers_reachesPush.
    + apply list_elem_of_fmap. exists c. split; [done|]. by apply elem_of_sorted.
Qed.

End Answers.

Lemma existsb_fmap {A B} (f : B → bool) (g : A → B) (l : list A) :
  existsb f (g <$> l) = existsb (f ∘ g) l.
Proof. induction l as [|x l IH]; [done|]. simpl. by rewrite <-IH. Qed.

(** The qualities only arrange the result: with the same parser, whatever
    [parseFloat] returns and whatever order [stable] produces, [result]
    holds the same strings the same number of times; and [parse] throws
    with the one when it throws with the other, and otherwise returns the
    same strings the same number of times. *)
Theorem qualities_only_reorder :
  ∀ (C1 C2 : Collaborators),
    @StableSort C1 → @StableSort C2 →
    (∀ t, @bcp47_parse C1 t = @bcp47_parse C2 t) →
    ∀ (this : AcceptLanguage) (s : string),
      @matched C1 this s ≡ₚ @matched C2 this s
      ∧ match fst (@parse C1 (PlString s) this),
              fst (@parse C2 (PlString s) this) with
        | Normal l1, Normal l2 => l1 ≡ₚ l2
        | Throw e1, Throw e2 => e1 = e2
        | _, _ => False
        end.
Proof.
  intros C1 C2 HS1 HS2 Hparser this s.
  assert (tag <$> @requestedTags C1 s = tag <$> @requestedTags C2 s) as Htags.
  { unfold requestedTags. induction (split "," s) as [|w ws IH]; [done|].
    cbn [map List.filter].
    change (tag (@weightedLanguageRange C1 w))
      with (tag (@weightedLanguageRange C2 w)).
    destruct (truthyString (tag (@weightedLanguageRange C2 w)));
      cbn [fmap list_fmap]; [f_equal|]; exact IH. }
  assert (tag <$> @parseAndSortLanguageTags C1 s
          ≡ₚ tag <$> @parseAndSortLanguageTags C2 s) as Hperm.
  { unfold parseAndSortLanguageTags.
    rewrite !stable_permutation. by rewrite Htags. }
  assert (@matched C1 this s ≡ₚ @matched C2 this s) as Hmatched;
    [|split; [exact Hmatched|]].
  2:{ rewrite !parse_outcome. cbn [fst]. destruct (truthyString s); [|done].
      set (h := λ t : string,
             match @bcp47_parse C1 t with
             | None => false
             | Some r =>
                 match readProperty (languageTagsWithValues this)
                         (propertyKey (lang_language (language r))) with
                 | Inherited => true
                 | _ => false
                 end
             end).
      assert (∀ l, existsb (@throwsAt C1 this) l = existsb h (tag <$> l)) as Hh1.
      { intros l. by rewrite existsb_fmap. }
      assert (∀ l, existsb (@throwsAt C2 this) l = existsb h (tag <$> l)) as Hh2.
      { intros l. rewrite existsb_fmap. apply existsb_ext_in. intros c _.
        unfold throwsAt, h. simpl. by rewrite Hparser. }
      rewrite Hh1, Hh2, (existsb_Permutation h _ _ Hperm).
      destruct (existsb h _); [done|].
      destruct (@matched C1 this s) as [|v1 l1] eqn:H1;
        destruct (@matched C2 this s) as [|v2 l2] eqn:H2.
      - done.
      - by apply Permutation_nil_l in Hmatched.
      - by apply Permutation_nil_r in Hmatched.
      - change (Some <$> (v1 :: l1) ≡ₚ Some <$> (v2 :: l2)).
        by rewrite Hmatched. }
  clear Htags.
  set (g := λ t : string,
         match @bcp47_parse C1 t with
         | None => []
         | Some r =>
             match languageTagsWithValues this
                     !! propertyKey (lang_language (language r)) with
             | None => []
             | Some bucket => List.filter (λ d, reachesPush (langtag d) r) bucket
             end
         end).
  assert (∀ c, @matchesFor C1 this c = g (tag c)) as Hg1 by done.
  assert (∀ c, @matchesFor C2 this c = g (tag c)) as Hg2.
  { intros c. unfold matchesFor, g. by rewrite Hparser. }
  rewrite !matched_concat.
  rewrite (list_fmap_ext (@matchesFor C1 this) (g ∘ tag)) by (intros; apply Hg1).
  rewrite (list_fmap_ext (@matchesFor C2 this) (g ∘ tag)) by (intros; apply Hg2).
  rewrite !list_fmap_compose. by rewrite Hperm.
Qed.

Lemma dropWhiteSpace_before lead body :
  allChars isWhiteSpace lead = true →
  match body with
  | String c _ => isWhiteSpace c = false
  | EmptyString => True
  end →
  dropWhiteSpace (lead +:+ body) = body.
Proof.
  intros Hlead Hbody. induction lead as [|c lead IH]; simpl.
  - destruct body as [|c body]; [done|]. simpl. by rewrite Hbody.
  - simpl in Hlead. apply andb_true_iff in Hlead as [Hc Hlead].
    rewrite Hc. by apply IH.
Qed.

Lemma append_assoc (a b c : string) : (a +:+ b) +:+ c = a +:+ b +:+ c.
Proof.
  induction a as [|x a IH]; [done|].
  change (String x ((a +:+ b) +:+ c) = String x (a +:+ b +:+ c)). by rewrite IH.
Qed.

Lemma white_space_no_semicolon s :
  allChars isWhiteSpace s = true → contains ";" s = false.
Proof.
  intros Hs. apply contains_allChars. revert Hs. apply allChars_impl.
  intros c Hc. apply negb_true_iff. destruct (Ascii.eqb_spec c ";"); [by subst|done].
Qed.

(** Only the first run of white space is removed from a component: when
    white space stands both before the language range and between the range
    and the semicolon, the tag keeps the second run. *)
Theorem tag_keeps_later_white_space `{Collaborators} :
  ∀ (before range gap parameters : string),
    before ≠ "" → allChars isWhiteSpace before = true →
    range ≠ "" → plainText range = true →
    allChars isWhiteSpace gap = true →
    tag (weightedLanguageRange
           (before +:+ range +:+ gap +:+ String ";" parameters))
    = range +:+ gap.
Proof.
  intros before range gap parameters Hbefore Hws Hrange Hplain Hgap.
  unfold weightedLanguageRange. cbn [tag].
  destruct before as [|c before]; [done|].
  simpl in Hws. apply andb_true_iff in Hws as [Hc Hws].
  assert (replaceFirstWhiteSpaceRun
            (String c before +:+ range +:+ gap +:+ String ";" parameters)
          = dropWhiteSpace (before +:+ range +:+ gap +:+ String ";" parameters))
    as ->.
  { simpl. by rewrite Hc. }
  rewrite dropWhiteSpace_before; [|done|].
  2:{ destruct range as [|x range]; [done|]. simpl in Hplain.
      apply andb_true_iff in Hplain as [Hx _].
      apply negb_true_iff, orb_false_iff in Hx as [Hx _].
      apply orb_false_iff in Hx as [Hx _]. exact Hx. }
  rewrite <-append_assoc, split_append; [done|].
  by rewrite contains_append, (plainText_no_semicolon _ Hplain),
    (white_space_no_semicolon _ Hgap).
Qed.

Section FailedCall.
Context `{Collaborators}.




End FailedCall.

(** ** The code on concrete inputs, with the reference collaborators *)

#[local] Existing Instance reference.
#[local] Existing Instance reference_contract.

(** The registry [['en-US', 'fr-FR']]: [parse('')] is [['en-US']] and
    [get(null)] is ['en-US']. *)
Lemma default_for_missing_priority_list_witness :
  let this' := snd (languages ["en-US"; "fr-FR"] newAcceptLanguage) in
  languages ["en-US"; "fr-FR"] newAcceptLanguage = (Normal (), this')
  ∧ ∃ first,
      ["en-US"; "fr-FR"] !! 0%nat = Some first
      ∧ defaultLanguageTag this' = Some first
      ∧ parse (PlString "") this' = (Normal [Some first], this')
      ∧ get (PlString "") this' = (Normal (Some (Some first)), this')
      ∧ get PlNull this' = (Normal (Some (Some first)), this').
Proof.
  intros this'.
  assert (languages ["en-US"; "fr-FR"] newAcceptLanguage = (Normal (), this'))
    as Hrun by (vm_compute; reflexivity).
  split; [exact Hrun|].
  apply (default_for_missing_priority_list
           ["en-US"; "fr-FR"] newAcceptLanguage this' (PlString "") Hrun).
  right. right. reflexivity.
Defined.

(** The registry [['zh-Hant']] and the request ["zh"]: the registered tag
    has a script, the requested one has none. *)
Lemma too_specific_candidate_rejected_witness :
  let this := snd (languages ["zh-Hant"] newAcceptLanguage) in
  let candidate :=
    {| langtag := plainTag "zh" (Some "Hant") None; value := "zh-Hant" |} in
  specifies prop_script (langtag candidate) = true
  ∧ specifies prop_script (plainTag "zh" None None) = false
  ∧ reachesPush (langtag candidate) (plainTag "zh" None None) = false
  ∧ parse (PlString "zh") this = (Normal [Some "zh-Hant"], this)
  ∧ parse (PlString "en-US") (snd (languages ["en"] newAcceptLanguage))
    = (Normal [Some "en"], snd (languages ["en"] newAcceptLanguage)).
Proof.
  intros this candidate.
  assert (specifies prop_script (langtag candidate) = true) as Hspec
    by reflexivity.
  assert (specifies prop_script (plainTag "zh" None None) = false) as Hnot
    by reflexivity.
  destruct too_specific_candidate_rejected
    as (Hreject & _ & _ & Hzh & _ & Hen).
  split; [exact Hspec|]. split; [exact Hnot|].
  split; [exact (Hreject _ _ prop_script Hspec Hnot)|].
  split; [apply Hzh; reflexivity|apply Hen; reflexivity].
Defined.

(** The registry [['en-US', 'fr-FR']] and the request
    ["fr-FR;q=0.5,en-US;q=0.9"]: the result is [['en-US', 'fr-FR']]. *)
Lemma requested_tags_sorted_and_result_grouped_witness :
  let s := "fr-FR;q=0.5,en-US;q=0.9" in
  let this := snd (languages ["en-US"; "fr-FR"] newAcceptLanguage) in
  Forall (λ c, isFiniteNumber (quality c) = true) (requestedTags s)
  ∧ StronglySorted descending (parseAndSortLanguageTags s)
  ∧ tag <$> parseAndSortLanguageTags s = ["en-US"; "fr-FR"]
  ∧ fst (parse (PlString s) this) = Normal [Some "en-US"; Some "fr-FR"].
Proof.
  intros s this.
  assert (Forall (λ c, isFiniteNumber (quality c) = true) (requestedTags s))
    as Hfinite.
  { apply Forall_forall. intros c Hc. apply list_elem_of_In in Hc.
    vm_compute in Hc. by destruct Hc as [<-|[<-|[]]]. }
  destruct (requested_tags_sorted_and_result_grouped s) as [Hsorted Hparse].
  destruct (Hsorted Hfinite) as (_ & Hdescending & _).
  split; [exact Hfinite|]. split; [exact Hdescending|].
  split; [vm_compute; reflexivity|].
  rewrite (Hparse ["en-US"; "fr-FR"] newAcceptLanguage this);
    [|reflexivity|vm_compute; reflexivity].
  vm_compute. reflexivity.
Defined.

(** The component ["en;q=0.8"]. *)
Lemma quality_of_component_witness :
  split ";" (replaceFirstWhiteSpaceRun "en;q=0.8") !! 1%nat = Some ("q=" +:+ "0.8")
  ∧ contains "=" "0.8" = false
  ∧ quality (weightedLanguageRange "en;q=0.8") = parseFloat (Some "0.8")
  ∧ specifiedQuality "en;q=0.8" = parseFloat (Some "0.8").
Proof.
  assert (split ";" (replaceFirstWhiteSpaceRun "en;q=0.8") !! 1%nat
          = Some ("q=" +:+ "0.8")) as Hp by reflexivity.
  assert (contains "=" "0.8" = false) as Hv by reflexivity.
  destruct (quality_of_component "en;q=0.8") as (_ & _ & _ & _ & Hq & _).
  destruct (Hq "0.8" Hp Hv) as [Hcode Hspec].
  split; [exact Hp|]. split; [exact Hv|]. split; [exact Hcode|exact Hspec].
Defined.

(** The registry [['en']]: the requests ["toString"] and ["fr,valueOf"]
    make [parse] throw, the requests [",,,"] and ["   "] give the default. *)
Lemma parse_throws_for_inherited_language_witness :
  let this := snd (languages ["en"] newAcceptLanguage) in
  bcp47_parse "toString" = Some (plainTag "toString" None None)
  ∧ languageTagsWithValues this !! "toString" = None
  ∧ parse (PlString "toString") this = (Throw NotIterable, this)
  ∧ get (PlString "toString") this = (Throw NotIterable, this)
  ∧ {| tag := "valueOf"; quality := Num 1 |} ∈ requestedTags "fr,valueOf"
  ∧ throwsAt this {| tag := "valueOf"; quality := Num 1 |} = true
  ∧ parse (PlString "fr,valueOf") this = (Throw NotIterable, this)
  ∧ parse (PlString ",,,") this = (Normal [Some "en"], this)
  ∧ parse (PlString "   ") this = (Normal [Some "en"], this).
Proof.
  intros this.
  assert (bcp47_parse "toString" = Some (plainTag "toString" None None))
    as HtoString by reflexivity.
  assert (languageTagsWithValues this !! "toString" = None) as Hown
    by (vm_compute; reflexivity).
  assert ({| tag := "valueOf"; quality := Num 1 |} ∈ requestedTags "fr,valueOf")
    as Hin by apply list_elem_of_further, list_elem_of_here.
  assert (throwsAt this {| tag := "valueOf"; quality := Num 1 |} = true)
    as HvalueOf by (vm_compute; reflexivity).
  destruct (parse_throws_for_inherited_language this)
    as (Hfails & Hthrows & _ & _ & Hcommas & Hspaces).
  destruct (Hfails HtoString Hown) as [Hparse Hget].
  destruct (Hthrows "fr,valueOf" _ eq_refl Hin HvalueOf) as [Hparse' _].
  split; [exact HtoString|]. split; [exact Hown|].
  split; [exact Hparse|]. split; [exact Hget|].
  split; [exact Hin|]. split; [exact HvalueOf|].
  split; [exact Hparse'|]. split; [exact Hcommas|exact Hspaces].
Defined.


(** The registry [['en']] followed by the call [languages(['fr', '!!'])]. *)
Lemma languages_effect_on_fields_witness :
  let this := snd (languages ["en"] newAcceptLanguage) in
  let this' := snd (languages ["fr"; "!!"] this) in
  languages ["fr"; "!!"] this = (Throw (NotBcp47Compliant "!!"), this')
  ∧ defaultLanguageTag this' = defaultLanguageTag this
  ∧ ∀ key, languageTagsWithValues this' !! key
           = extendBucket None (bucketOf key (acceptedPrefix ["fr"; "!!"])).
Proof.
  intros this this'.
  assert (languages ["fr"; "!!"] this = (Throw (NotBcp47Compliant "!!"), this'))
    as Hrun by (vm_compute; reflexivity).
  split; [exact Hrun|].
  exact (languages_effect_on_fields ["fr"; "!!"] this this' _ Hrun).
Defined.

(** The registry [['en']] and the request ["en-US,en"]. *)
Lemma matches_not_deduplicated_witness :
  let this := snd (languages ["en"] newAcceptLanguage) in
  let d := {| langtag := plainTag "en" None None; value := "en" |} in
  bcp47_parse "en" = Some (plainTag "en" None None)
  ∧ bcp47_parse "en-US" = Some (plainTag "en" None (Some "US"))
  ∧ parse (PlString "en-US,en") this = (Normal [Some "en"; Some "en"], this)
  ∧ (2 ≤ occurrences (value d) [Some "en"; Some "en"])%nat.
Proof.
  intros this d.
  assert (bcp47_parse "en" = Some (plainTag "en" None None)) as Hen
    by reflexivity.
  assert (bcp47_parse "en-US" = Some (plainTag "en" None (Some "US"))) as Hen_US
    by reflexivity.
  destruct matches_not_deduplicated as [Hcount Hexample].
  pose proof (Hexample Hen Hen_US newAcceptLanguage) as Hresult.
  split; [exact Hen|]. split; [exact Hen_US|]. split; [exact Hresult|].
  apply (Hcount this "en-US,en" d [Some "en"; Some "en"] eq_refl).
  fold this in Hresult. by rewrite Hresult.
Defined.

(** The request ["en;q=x,fr"]: the first quality is [NaN], and the sorted
    array is not in descending order of quality.  The request
    ["en;q=Infinity,fr;q=Infinity"]: the two qualities are equal, their
    difference is [NaN], and the sorted array has the two components in the
    other order. *)
Lemma sorted_by_quality_counterexample :
  (requestedTags "en;q=x,fr"
   = [{| tag := "en"; quality := NaN |}; {| tag := "fr"; quality := Num 1 |}]
   ∧ ¬ StronglySorted descending (parseAndSortLanguageTags "en;q=x,fr"))
  ∧ (let s := "en;q=Infinity,fr;q=Infinity" in
     let en := {| tag := "en"; quality := PosInfinity |} in
     let fr := {| tag := "fr"; quality := PosInfinity |} in
     requestedTags s = [en; fr]
     ∧ sameQuality en fr = true
     ∧ byQuality en fr = NaN
     ∧ parseAndSortLanguageTags s = [fr; en]
     ∧ List.filter (sameQuality en) (parseAndSortLanguageTags s)
       ≠ List.filter (sameQuality en) (requestedTags s)).
Proof.
  split.
  - split; [reflexivity|].
    change (parseAndSortLanguageTags "en;q=x,fr")
      with [{| tag := "fr"; quality := Num 1 |}; {| tag := "en"; quality := NaN |}].
    intros Hsorted. apply StronglySorted_inv in Hsorted as [_ Hfirst].
    apply Forall_inv in Hfirst. discriminate Hfirst.
  - intros s en fr.
    split; [reflexivity|]. split; [reflexivity|]. split; [reflexivity|].
    split; [reflexivity|]. vm_compute. discriminate.
Qed.

(** The component ["en;foo=0.3"] has no [q=] parameter, and its quality is
    not 1.0. *)
Lemma quality_without_q_counterexample :
  specifiedQuality "en;foo=0.3" = Num 1
  ∧ quality (weightedLanguageRange "en;foo=0.3")
    = Num (5404319552844595 # 18014398509481984)
  ∧ quality (weightedLanguageRange "en;foo=0.3") ≠ specifiedQuality "en;foo=0.3".
Proof.
  split; [reflexivity|]. split; [vm_compute; reflexivity|].
  vm_compute. discriminate.
Qed.


(** After [languages(['en'])], the call [languages(['fr', '!!'])] throws and
    leaves a registry that holds ['fr'] and no longer ['en']. *)
Lemma languages_not_atomic_counterexample :
  let this := snd (languages ["en"] newAcceptLanguage) in
  let this' := snd (languages ["fr"; "!!"] this) in
  fst (languages ["fr"; "!!"] this) = Throw (NotBcp47Compliant "!!")
  ∧ languageTagsWithValues this !! "en"
    = Some [{| langtag := plainTag "en" None None; value := "en" |}]
  ∧ languageTagsWithValues this' !! "en" = None
  ∧ languageTagsWithValues this' !! "fr"
    = Some [{| langtag := plainTag "fr" None None; value := "fr" |}]
  ∧ languageTagsWithValues this' ≠ languageTagsWithValues this.
Proof.
  intros this this'.
  assert (languageTagsWithValues this !! "en"
          = Some [{| langtag := plainTag "en" None None; value := "en" |}])
    as Hbefore by (vm_compute; reflexivity).
  assert (languageTagsWithValues this' !! "en" = None)
    as Hafter by (vm_compute; reflexivity).
  split; [vm_compute; reflexivity|]. split; [exact Hbefore|].
  split; [exact Hafter|]. split; [vm_compute; reflexivity|].
  intros Heq. rewrite Heq, Hbefore in Hafter. discriminate Hafter.
Qed.

(** The instance made by [create()] of [create()] returns [null] from its
    own [create]. *)
Lemma create_of_created_instance_example :
  let (al, h1) := create [] in
  callCreate al h1
  = Some (Some 1%nat, [{| fields := newAcceptLanguage; ownCreate := true |};
                       {| fields := newAcceptLanguage; ownCreate := false |}])
  ∧ callCreate 1%nat [{| fields := newAcceptLanguage; ownCreate := true |};
                      {| fields := newAcceptLanguage; ownCreate := false |}]
    = Some (None, [{| fields := newAcceptLanguage; ownCreate := true |};
                   {| fields := newAcceptLanguage; ownCreate := false |}]).
Proof. by split. Qed.

(** Equal qualities: the order of the request is kept. *)
Example tie_keeps_request_order :
  fst (parse (PlString "en-US;q=0.5,fr-FR;q=0.5")
         (snd (languages ["en-US"; "fr-FR"] newAcceptLanguage)))
  = Normal [Some "en-US"; Some "fr-FR"].
Proof. vm_compute. reflexivity. Qed.

(** The request ["en"] against [['en', 'en-GB']]: the tag with a region is
    too specific, only ['en'] matches. *)
Example region_too_specific :
  fst (parse (PlString "en")
         (snd (languages ["en"; "en-GB"] newAcceptLanguage)))
  = Normal [Some "en"].
Proof. vm_compute. reflexivity. Qed.

(** An instance on which [languages] was never called answers [null]. *)
Example unconfigured_instance :
  fst (get (PlString "en") newAcceptLanguage) = Normal (Some None).
Proof. vm_compute. reflexivity. Qed.

(** ** Further runs with the reference collaborators *)

(** ['en'] matches the request ["en-US"], ['en-US'] matches the request
    ["en-US-1996"], and so does ['en']. *)
Lemma reachesPush_preorder_witness :
  let en := plainTag "en" None None in
  let en_US := plainTag "en" None (Some "US") in
  let en_US_1996 :=
    {| language := {| lang_language := Some "en"; extlang := [] |};
       script := None; region := Some "US"; variant := ["1996"];
       extension := []; privateuse := [] |} in
  bcp47_parse "en-US-1996" = Some en_US_1996
  ∧ reachesPush en en_US = true
  ∧ reachesPush en_US en_US_1996 = true
  ∧ reachesPush en en_US_1996 = true.
Proof.
  intros en en_US en_US_1996.
  assert (reachesPush en en_US = true) as H1 by reflexivity.
  assert (reachesPush en_US en_US_1996 = true) as H2 by reflexivity.
  destruct reachesPush_preorder as [_ Htrans].
  split; [reflexivity|]. split; [exact H1|]. split; [exact H2|].
  exact (Htrans _ _ _ H1 H2).
Defined.

(** ['en-a-foo'] and the request ["en-b-foo"] differ by the singleton
    only. *)
Lemma reachesPush_reads_only_witness :
  let d :=
    {| language := {| lang_language := Some "en"; extlang := [] |};
       script := None; region := None; variant := [];
       extension := [{| singleton := "a"; ext_extension := ["foo"] |}];
       privateuse := [] |} in
  let r :=
    {| language := {| lang_language := Some "en"; extlang := [] |};
       script := None; region := None; variant := [];
       extension := [{| singleton := "b"; ext_extension := ["foo"] |}];
       privateuse := [] |} in
  bcp47_parse "en-a-foo" = Some d
  ∧ bcp47_parse "en-b-foo" = Some r
  ∧ sameMatchedFields d r
  ∧ reachesPush d r = reachesPush d d
  ∧ reachesPush d r = true.
Proof.
  intros d r.
  assert (sameMatchedFields d d) as Hd by (by repeat split).
  assert (sameMatchedFields r d) as Hr by (by repeat split).
  split; [reflexivity|]. split; [reflexivity|]. split; [by repeat split|].
  split; [|reflexivity].
  exact (reachesPush_reads_only d d r d Hd Hr).
Defined.

(** The calls [languages(['en', '!!'])] and then [languages([])] on a new
    instance. *)
Lemma languages_keeps_registry_well_formed_witness :
  wellFormedRegistry
    (snd (languages [] (snd (languages ["en"; "!!"] newAcceptLanguage)))).
Proof.
  destruct languages_keeps_registry_well_formed as [Hnew Hstep].
  apply Hstep, Hstep, Hnew.
Defined.

(** The registry [['en-US', 'fr-FR']]. *)
Lemma registered_tags_round_trip_witness :
  let this := snd (languages ["en-US"; "fr-FR"] newAcceptLanguage) in
  languages ["en-US"; "fr-FR"] newAcceptLanguage = (Normal (), this)
  ∧ ∃ languageTag key bucket,
      bcp47_parse "fr-FR" = Some languageTag
      ∧ lang_language (language languageTag) = Some key
      ∧ languageTagsWithValues this !! key = Some bucket
      ∧ {| langtag := languageTag; value := "fr-FR" |} ∈ bucket.
Proof.
  intros this.
  assert (languages ["en-US"; "fr-FR"] newAcceptLanguage = (Normal (), this))
    as Hrun by (vm_compute; reflexivity).
  split; [exact Hrun|].
  destruct (registered_tags_round_trip _ _ _ Hrun) as [Hin _].
  apply Hin. apply list_elem_of_further, list_elem_of_here.
Defined.

(** The registry [['en-US', 'fr-FR']] and the request ["de, fr"]. *)
Lemma answers_are_registered_tags_witness :
  let this := snd (languages ["en-US"; "fr-FR"] newAcceptLanguage) in
  languages ["en-US"; "fr-FR"] newAcceptLanguage = (Normal (), this)
  ∧ ∃ t, fst (get (PlString "de, fr") this) = Normal (Some (Some t))
         ∧ t ∈ ["en-US"; "fr-FR"].
Proof.
  intros this.
  assert (languages ["en-US"; "fr-FR"] newAcceptLanguage = (Normal (), this))
    as Hrun by (vm_compute; reflexivity).
  split; [exact Hrun|].
  destruct (proj2 (answers_are_registered_tags _ _ _ (PlString "de, fr") Hrun))
    as [Hthrows|Hreturns]; [|exact Hreturns].
  vm_compute in Hthrows. discriminate Hthrows.
Defined.

(** After [languages(['de'])], the call [languages(['en', 'valueOf'])]. *)
Lemma languages_throws_for_inherited_language_witness :
  let this := snd (languages ["de"] newAcceptLanguage) in
  let this' := snd (languages ["en"; "valueOf"] this) in
  Forall accepted ["en"]
  ∧ bcp47_parse "valueOf" = Some (plainTag "valueOf" None None)
  ∧ fst (languages ["en"; "valueOf"] this) = Throw PushIsNotAFunction
  ∧ defaultLanguageTag this' = Some "de"
  ∧ languageTagsWithValues this' !! "en"
    = Some [{| langtag := plainTag "en" None None; value := "en" |}]
  ∧ languageTagsWithValues this' !! "de" = None.
Proof.
  intros this this'.
  assert (Forall accepted ["en"]) as Hfront.
  { repeat constructor. exists (plainTag "en" None None).
    split; [done|]. split; [done|]. by apply not_inherited. }
  assert (bcp47_parse "valueOf" = Some (plainTag "valueOf" None None)) as Hs
    by reflexivity.
  destruct (languages_throws_for_inherited_language
              this ["en"] [] "valueOf" _ Hfront Hs eq_refl)
    as (Hthrows & Hdefault & Hregistry).
  { by apply is_inherited. }
  split; [exact Hfront|]. split; [exact Hs|]. split; [exact Hthrows|].
  split; [exact Hdefault|]. split; [exact (Hregistry "en")|exact (Hregistry "de")].
Defined.

(** A new instance and the requests ["en"] and ["toString"]. *)
Lemma empty_registry_gives_default_witness :
  languageTagsWithValues newAcceptLanguage = ∅
  ∧ get (PlString "en") newAcceptLanguage = (Normal (Some None), newAcceptLanguage)
  ∧ get (PlString "toString") newAcceptLanguage
    = (Throw NotIterable, newAcceptLanguage).
Proof.
  assert (languageTagsWithValues newAcceptLanguage = ∅) as Hempty by reflexivity.
  split; [exact Hempty|]. split.
  - exact (proj2 (empty_registry_gives_default _ (PlString "en") Hempty)).
  - exact (proj2 (empty_registry_gives_default _ (PlString "toString") Hempty)).
Defined.

(** The list ["fr-FR;q=0.5, en-US"]. *)
Lemma rendered_header_is_read_back_witness :
  let items := [{| lead := ""; range := "fr-FR"; weight := Some "0.5" |};
                {| lead := " "; range := "en-US"; weight := None |}] in
  Forall wellFormedItem items
  ∧ renderHeader items = "fr-FR;q=0.5, en-US"
  ∧ requestedTags "fr-FR;q=0.5, en-US"
    = [{| tag := "fr-FR"; quality := parseFloat (Some "0.5") |};
       {| tag := "en-US"; quality := Num 1 |}].
Proof.
  intros items.
  assert (Forall wellFormedItem items) as Hwf.
  { repeat constructor; done. }
  split; [exact Hwf|]. split; [reflexivity|].
  exact (rendered_header_is_read_back items Hwf).
Defined.

(** The registry [['en', 'en-US']] and the request ["en-US"]. *)
Lemma registered_tag_requested_verbatim_witness :
  let this := snd (languages ["en"; "en-US"] newAcceptLanguage) in
  languages ["en"; "en-US"] newAcceptLanguage = (Normal (), this)
  ∧ plainText "en-US" = true
  ∧ ∃ l, parse (PlString "en-US") this = (Normal l, this) ∧ Some "en-US" ∈ l.
Proof.
  intros this.
  assert (languages ["en"; "en-US"] newAcceptLanguage = (Normal (), this))
    as Hrun by (vm_compute; reflexivity).
  assert (plainText "en-US" = true) as Hplain by reflexivity.
  split; [exact Hrun|]. split; [exact Hplain|].
  apply (registered_tag_requested_verbatim _ _ _ "en-US" Hrun);
    [apply list_elem_of_further, list_elem_of_here|done|exact Hplain].
Defined.

(** The registry [['en-US', 'fr-FR']] and the request
    ["fr-FR;q=0.5,en-US;q=0.9"]. *)
Lemma get_prefers_greater_quality_witness :
  let s := "fr-FR;q=0.5,en-US;q=0.9" in
  let this := snd (languages ["en-US"; "fr-FR"] newAcceptLanguage) in
  Forall (λ c, isFiniteNumber (quality c) = true) (requestedTags s)
  ∧ fst (parse (PlString s) this) = Normal [Some "en-US"; Some "fr-FR"]
  ∧ matched this s = ["en-US"; "fr-FR"]
  ∧ get (PlString s) this = (Normal (Some (Some "en-US")), this).
Proof.
  intros s this.
  assert (Forall (λ c, isFiniteNumber (quality c) = true) (requestedTags s))
    as Hfinite.
  { apply Forall_forall. intros c Hc. apply list_elem_of_In in Hc.
    vm_compute in Hc. by destruct Hc as [<-|[<-|[]]]. }
  assert (fst (parse (PlString s) this) = Normal [Some "en-US"; Some "fr-FR"])
    as Hl by (vm_compute; reflexivity).
  assert (matched this s = ["en-US"; "fr-FR"]) as Hmatched
    by (vm_compute; reflexivity).
  split; [exact Hfinite|]. split; [exact Hl|]. split; [exact Hmatched|].
  exact (proj1 (proj2 (get_prefers_greater_quality this s "en-US" ["fr-FR"] _
                         eq_refl Hfinite Hl Hmatched))).
Defined.

(** The registry [['en', 'en-GB']] and the request ["en-GB"]. *)
Lemma matched_exactly_the_selected_tags_witness :
  let this := snd (languages ["en"; "en-GB"] newAcceptLanguage) in
  languages ["en"; "en-GB"] newAcceptLanguage = (Normal (), this)
  ∧ "en-GB" ∈ matched this "en-GB"
  ∧ ∃ c r d,
      c ∈ requestedTags "en-GB"
      ∧ bcp47_parse (tag c) = Some r
      ∧ bcp47_parse "en-GB" = Some d
      ∧ lang_language (language d)
        = Some (propertyKey (lang_language (language r)))
      ∧ covers d r.
Proof.
  intros this.
  assert (languages ["en"; "en-GB"] newAcceptLanguage = (Normal (), this))
    as Hrun by (vm_compute; reflexivity).
  assert ("en-GB" ∈ matched this "en-GB") as Hin.
  { change (matched this "en-GB") with ["en"; "en-GB"].
    apply list_elem_of_further, list_elem_of_here. }
  split; [exact Hrun|]. split; [exact Hin|].
  destruct (matched_exactly_the_selected_tags _ _ _ "en-GB" "en-GB" Hrun)
    as [Hexactly _].
  exact (proj2 (proj1 Hexactly Hin)).
Defined.

(** The reference collaborators against the same with a [parseFloat] that
    always answers 1, on the request ["fr-FR;q=0,en-US;q=0.9"]. *)
Lemma qualities_only_reorder_witness :
  let unweighted :=
    {| bcp47_parse := bcp47_reference;
       parseFloat := λ _, Num 1;
       stable := stable_reference |} in
  let this := snd (languages ["en-US"; "fr-FR"] newAcceptLanguage) in
  @matched reference this "fr-FR;q=0,en-US;q=0.9" = ["en-US"; "fr-FR"]
  ∧ @matched unweighted this "fr-FR;q=0,en-US;q=0.9" = ["fr-FR"; "en-US"]
  ∧ fst (@parse reference (PlString "fr-FR;q=0,en-US;q=0.9") this)
    = Normal [Some "en-US"; Some "fr-FR"]
  ∧ fst (@parse unweighted (PlString "fr-FR;q=0,en-US;q=0.9") this)
    = Normal [Some "fr-FR"; Some "en-US"]
  ∧ @matched reference this "fr-FR;q=0,en-US;q=0.9"
    ≡ₚ @matched unweighted this "fr-FR;q=0,en-US;q=0.9".
Proof.
  intros unweighted this.
  assert (@StableSort unweighted) as Hcontract.
  { split; simpl.
    - intros l comp. apply stable_reference_permutation.
    - intros l comp. apply stable_reference_sorted.
    - intros l comp x. apply stable_reference_ties. }
  split; [vm_compute; reflexivity|]. split; [vm_compute; reflexivity|].
  split; [vm_compute; reflexivity|]. split; [vm_compute; reflexivity|].
  apply (qualities_only_reorder reference unweighted reference_contract Hcontract).
  reflexivity.
Defined.

(** The component [" en ;q=0.5"]: the tag is ["en "]. *)
Lemma tag_keeps_later_white_space_witness :
  allChars isWhiteSpace " " = true ∧ plainText "en" = true
  ∧ tag (weightedLanguageRange (" " +:+ "en" +:+ " " +:+ String ";" "q=0.5"))
    = "en ".
Proof.
  split; [reflexivity|]. split; [reflexivity|].
  exact (tag_keeps_later_white_space " " "en" " " "q=0.5"
           ltac:(discriminate) eq_refl ltac:(discriminate) eq_refl eq_refl).
Defined.

